(** * LLMTV: segment mapping, batch generation, assembly and caching

    A shallow embedding of the pipeline's core: [utils/transcriber.py]
    (segment mapper), [utils/video_generator.py] (per-segment job and batch
    collector), [utils/video_stitcher.py] (assembler), [utils/llm_handler.py]
    and [utils/cache_manager.py] (lyrics stage and its on-disk cache).

    Durations are Python floats in the source.  They are embedded as exact
    rationals [Q]: the mapper only multiplies integers, compares, and divides
    by the power of two 8, all of which are exact on binary floats outside
    underflow.  Python [str] is embedded as [string], one [ascii] per code
    point (code points below 256). *)

From Stdlib Require Import Ascii String QArith Qround Lqa.
From stdpp Require Import gmap strings list pretty.

Local Open Scope Z_scope.

(** ** Python primitives used by the sources *)

Module Py.

(** [str.isspace] on code points below 256: TAB..CR, FS..US, space, NEL
    and NBSP. *)
Definition is_space (c : ascii) : bool :=
  let n := nat_of_ascii c in
  ((9 <=? n)%nat && (n <=? 13)%nat) || ((28 <=? n)%nat && (n <=? 32)%nat)
  || (n =? 133)%nat || (n =? 160)%nat.

Fixpoint lstrip (s : string) : string :=
  match s with
  | EmptyString => EmptyString
  | String c s' => if is_space c then lstrip s' else s
  end.

Fixpoint rstrip (s : string) : string :=
  match s with
  | EmptyString => EmptyString
  | String c s' =>
      match rstrip s' with
      | EmptyString => if is_space c then EmptyString else String c EmptyString
      | r => String c r
      end
  end.

(** [s.strip()] *)
Definition strip (s : string) : string := rstrip (lstrip s).

(** [sep.join(l)] *)
Definition join (sep : string) (l : list string) : string := String.concat sep l.

(** [s[:n]] for [n >= 0] *)
Fixpoint slice_to (n : nat) (s : string) : string :=
  match n, s with
  | S n', String c s' => String c (slice_to n' s')
  | _, _ => EmptyString
  end.

(** Truthiness of a [str]: only the empty string is falsy. *)
Definition truthy (s : string) : bool :=
  match s with EmptyString => false | String _ _ => true end.

(** Truthiness of an optional [str] ([None] is falsy). *)
Definition truthy_opt (o : option string) : bool :=
  match o with None => false | Some s => truthy s end.

(** Exceptions: the classes the sources tell apart, and the message
    [str(e)].  [OSError] stands for [OSError] and its subclasses other than
    [TimeoutError] and [requests.exceptions.Timeout] (both of which are
    subclasses of it); [OtherException] for every other subclass of
    [Exception] apart from [AttributeError]. *)
Inductive ExnClass :=
| TimeoutError | RequestsTimeout | OSError | AttributeError | OtherException.

Record Exn := { exn_class : ExnClass; str : string }.

(** [raise Exception(msg)] *)
Definition Exception (msg : string) : Exn :=
  {| exn_class := OtherException; str := msg |}.

(** The outcome of a call: a value, or a raised exception. *)
Inductive Result (A : Type) :=
| Ok (a : A)
| Raise (e : Exn).
Arguments Ok {A} a.
Arguments Raise {A} e.

(** [a <= b] on numbers. *)
Definition leb (a b : Q) : bool := Qle_bool a b.

(** [a < b] on numbers. *)
Definition ltb (a b : Q) : bool :=
  match (a ?= b)%Q with Lt => true | _ => false end.

(** [min(a, b)]: the first argument unless the second is strictly smaller. *)
Definition min (a b : Q) : Q := if ltb b a then b else a.

(** [math.ceil] *)
Definition ceil (q : Q) : Z := Qceiling q.

(** [range(n)]: empty when [n <= 0]. *)
Definition range (n : Z) : list Z := map Z.of_nat (seq 0 (Z.to_nat n)).

End Py.

(** ** [utils/cache_manager.py]: the cache store on disk *)

Module CacheManager.
Import Py.

(** The files on disk, by path, with their contents. *)
Abbreviation Disk := (gmap string string).

Definition CACHE_DIR : string := "cache".

(** [CACHE_DIR / f"{cache_key}.{ext}"] *)
Definition cache_path (cache_key ext : string) : string :=
  CACHE_DIR +:+ "/" +:+ cache_key +:+ "." +:+ ext.

(** The positional arguments given to [get_cache_key].  The key itself,
    the MD5 digest of their JSON dump, is left uninterpreted: the functions
    below take [get_cache_key : list Arg -> string] as a parameter. *)
Inductive Arg :=
| AStr (s : string)
| AInt (n : Z).

Definition is_cr (c : ascii) : bool := (nat_of_ascii c =? 13)%nat.
Definition is_lf (c : ascii) : bool := (nat_of_ascii c =? 10)%nat.
Definition LF : ascii := ascii_of_nat 10.

(** Reading a file opened with [open(path, "r")]: universal newlines,
    every CR LF and every lone CR comes back as LF. *)
Fixpoint universal_newlines (s : string) : string :=
  match s with
  | EmptyString => EmptyString
  | String c rest =>
      if is_cr c then
        String LF
          match rest with
          | EmptyString => EmptyString
          | String c' rest' =>
              if is_lf c' then universal_newlines rest'
              else universal_newlines rest
          end
      else String c (universal_newlines rest)
  end.

(** [get_cached_result]: a JSON document is identified with its
    serialized text, so that [json.load] gives the file's content. *)
Definition get_cached_result (disk : Disk) (cache_key result_type : string)
    : option string :=
  let cache_file := cache_path cache_key result_type in
  match disk !! cache_file with
  | None => None
  | Some content =>
      if String.eqb result_type "json" then Some content
      else if String.eqb result_type "text" then Some (universal_newlines content)
      else if String.eqb result_type "file" then Some cache_file
      else None
  end.

(** [shutil.copy(src, dst)] *)
Definition copy (disk : Disk) (src dst : string) : Result Disk :=
  match disk !! src with
  | Some content => Ok (<[dst := content]> disk)
  | None => Raise {| exn_class := OSError; str := "No such file or directory" |}
  end.

(** [save_to_cache]: [result] is the text to write, the serialized
    JSON document, or the path to copy from.  On POSIX a file opened with
    [open(path, "w")] receives the text as it is. *)
Definition save_to_cache (disk : Disk) (cache_key result result_type : string)
    : Result Disk :=
  let cache_file := cache_path cache_key result_type in
  if String.eqb result_type "json" then Ok (<[cache_file := result]> disk)
  else if String.eqb result_type "text" then Ok (<[cache_file := result]> disk)
  else if String.eqb result_type "file" then copy disk result cache_file
  else Ok disk.

Definition get_cached_file (disk : Disk) (cache_key extension : string)
    : option string :=
  let cache_file := cache_path cache_key extension in
  match disk !! cache_file with
  | Some _ => Some cache_file
  | None => None
  end.

Definition save_file_to_cache (disk : Disk) (cache_key source_path extension : string)
    : Result (string * Disk) :=
  let cache_file := cache_path cache_key extension in
  match copy disk source_path cache_file with
  | Ok disk' => Ok (cache_file, disk')
  | Raise e => Raise e
  end.

(** [clear_cache]: every file under the cache directory is removed. *)
Definition clear_cache (disk : Disk) : Disk :=
  filter (fun kv => negb (String.prefix (CACHE_DIR +:+ "/") kv.1) = true) disk.

End CacheManager.

(** ** [utils/llm_handler.py]: the lyrics stage *)

Module LlmHandler.
Import Py CacheManager.

(** The state the stage runs in: the disk, and how many calls the remote
    model has received so far. *)
Record World := { disk : Disk; remote_calls : nat }.

(** The remote model: what [completion] gives back on its [n]-th call for a
    model and a user message, namely the [content] of the first choice
    ([None] when the reply carries no text) or an exception.  Replies may
    differ from call to call. *)
Definition Completion : Type := nat -> string -> string -> Result (option string).

(** The [if use_cache:] block at the top: the cached text when there is
    one and it is truthy. *)
Definition cached_lyrics (get_cache_key : list Arg -> string) (w : World)
    (prompt model : string) (use_cache : bool) : option string :=
  if use_cache then
    let cache_key := get_cache_key [AStr "lyrics"; AStr prompt; AStr model] in
    let cached := get_cached_result (disk w) cache_key "text" in
    if truthy_opt cached then cached else None
  else None.

Definition generate_lyrics (get_cache_key : list Arg -> string)
    (completion : Completion) (w : World)
    (prompt model : string) (use_cache : bool) : Result string * World :=
  match cached_lyrics get_cache_key w prompt model use_cache with
  | Some cached => (Ok cached, w)
  | None =>
      let fail (e : Exn) (w' : World) :=
        (Raise (Exception ("Failed to generate lyrics: " +:+ str e)), w') in
      let w1 := {| disk := disk w; remote_calls := S (remote_calls w) |} in
      match completion (remote_calls w) model ("Write song lyrics about: " +:+ prompt) with
      | Raise e => fail e w1
      | Ok None =>
          fail {| exn_class := AttributeError;
                  str := "'NoneType' object has no attribute 'strip'" |} w1
      | Ok (Some content) =>
          let lyrics := strip content in
          let lyrics := slice_to 599 lyrics in
          if use_cache then
            let cache_key := get_cache_key [AStr "lyrics"; AStr prompt; AStr model] in
            match save_to_cache (disk w1) cache_key lyrics "text" with
            | Ok disk' =>
                (Ok lyrics, {| disk := disk'; remote_calls := remote_calls w1 |})
            | Raise e => fail e w1
            end
          else (Ok lyrics, w1)
      end
  end.

(** [generate_music_style_prompt]: the style given when there is one
    (an empty text counts as none), a default style otherwise.  [concept] is
    not used. *)
Definition generate_music_style_prompt (concept : string)
    (style_description : option string) : string :=
  if truthy_opt style_description then default EmptyString style_description
  else "Catchy pop song with modern production, upbeat tempo, clear vocals".

End LlmHandler.

(** ** [utils/music_generator.py]: the music stage *)

Module MusicGenerator.
Import Py CacheManager LlmHandler.

(** The remote music model: what [replicate.run] gives back on its [n]-th
    call for the lyrics and the style, namely the bytes of the audio or an
    exception. *)
Definition Replicate : Type := nat -> string -> string -> Result string.

(** [AudioFileClip(path).duration]: the media toolkit reading the
    duration off the file's bytes ([probe]); a missing or unreadable file
    raises. *)
Definition audio_duration (probe : string -> Result Q) (disk : Disk)
    (path : string) : Result Q :=
  match disk !! path with
  | Some bytes => probe bytes
  | None => Raise {| exn_class := OSError; str := "file not found" |}
  end.

Definition generate_music (get_cache_key : list Arg -> string)
    (run : Replicate) (probe : string -> Result Q) (w : World)
    (lyrics style_prompt output_path : string) (use_cache : bool)
    : Result (string * Q) * World :=
  let cached_file :=
    if use_cache
    then get_cached_file (disk w)
           (get_cache_key [AStr "music"; AStr lyrics; AStr style_prompt]) "mp3"
    else None in
  if truthy_opt cached_file then
    match copy (disk w) (default EmptyString cached_file) output_path with
    | Raise e => (Raise e, w)
    | Ok disk1 =>
        let w1 := {| disk := disk1; remote_calls := remote_calls w |} in
        match audio_duration probe disk1 output_path with
        | Raise e => (Raise e, w1)
        | Ok duration => (Ok (output_path, duration), w1)
        end
    end
  else
    let fail (e : Exn) (w' : World) :=
      (Raise (Exception ("Failed to generate music: " +:+ str e)), w') in
    let w1 := {| disk := disk w; remote_calls := S (remote_calls w) |} in
    match run (remote_calls w) lyrics style_prompt with
    | Raise e => fail e w1
    | Ok output =>
        let w2 := {| disk := <[output_path := output]> (disk w1);
                     remote_calls := remote_calls w1 |} in
        match audio_duration probe (disk w2) output_path with
        | Raise e => fail e w2
        | Ok duration =>
            if use_cache then
              let cache_key :=
                get_cache_key [AStr "music"; AStr lyrics; AStr style_prompt] in
              match save_file_to_cache (disk w2) cache_key output_path "mp3" with
              | Ok (_, disk3) =>
                  (Ok (output_path, duration),
                   {| disk := disk3; remote_calls := remote_calls w2 |})
              | Raise e => fail e w2
              end
            else (Ok (output_path, duration), w2)
        end
    end.

End MusicGenerator.

(** ** [utils/transcriber.py]: the segment mapper *)

Module Transcriber.

(** A chunk of the transcription service's output: [{text, timestamp}].
    The [timestamp] key may be missing, and either end may be [None]. *)
Record Chunk := {
  chunk_text : string;
  chunk_timestamp : option (option Q * option Q)
}.

(** The transcription dict; a missing key is [None]. *)
Record Transcription := {
  tr_chunks : option (list Chunk);
  tr_text : option string
}.

(** [(start_time, end_time, lyrics_text)] *)
Definition Segment : Type := Q * Q * string.

Definition seg_start (s : Segment) : Q := s.1.1.
Definition seg_end (s : Segment) : Q := s.1.2.
Definition seg_text (s : Segment) : string := s.2.

(** [transcription.get("chunks", [])] *)
Definition get_chunks (t : Transcription) : list Chunk :=
  default [] (tr_chunks t).

(** [transcription.get("text", "")] *)
Definition get_text (t : Transcription) : string :=
  default EmptyString (tr_text t).

(** [chunk.get("timestamp", [None, None])] *)
Definition get_timestamp (c : Chunk) : option Q * option Q :=
  default (None, None) (chunk_timestamp c).

(** One iteration of the inner [for chunk in chunks] loop. *)
Definition chunk_step (segment_start segment_end : Q)
    (overlapping_lyrics : list string) (chunk : Chunk) : list string :=
  match get_timestamp chunk with
  | (Some chunk_start, Some chunk_end) =>
      if Py.ltb chunk_start segment_end && Py.ltb segment_start chunk_end
      then overlapping_lyrics ++ [Py.strip (chunk_text chunk)]
      else overlapping_lyrics
  | _ => overlapping_lyrics
  end.

(** The inner loop, started from the empty list. *)
Definition overlapping (segment_start segment_end : Q)
    (chunks : list Chunk) : list string :=
  fold_left (chunk_step segment_start segment_end) chunks [].

(** One iteration of the outer [for i in range(num_segments)] loop. *)
Definition segment_step (transcription : Transcription) (chunks : list Chunk)
    (song_duration : Q) (video_segments : list Segment) (i : Z) : list Segment :=
  let segment_start := inject_Z (i * 8) in
  let segment_end := Py.min (inject_Z ((i + 1) * 8)) song_duration in
  let overlapping_lyrics := overlapping segment_start segment_end chunks in
  let segment_lyrics :=
    match overlapping_lyrics with
    | [] => get_text transcription
    | _ => Py.join " " overlapping_lyrics
    end in
  video_segments ++ [(segment_start, segment_end, segment_lyrics)].

Definition map_to_video_segments (transcription : Transcription)
    (song_duration : Q) : list Segment :=
  let chunks := get_chunks transcription in
  match chunks with
  | [] =>
      let full_text := get_text transcription in
      let num_segments := Py.ceil (song_duration / 8) in
      map (fun i => (inject_Z (i * 8),
                     Py.min (inject_Z ((i + 1) * 8)) song_duration,
                     full_text))
          (Py.range num_segments)
  | _ =>
      let num_segments := Py.ceil (song_duration / 8) in
      fold_left (segment_step transcription chunks song_duration)
                (Py.range num_segments) []
  end.

End Transcriber.

(** ** [utils/video_generator.py]: the segment job and the batch collector *)

Module VideoGenerator.
Import Py CacheManager.

(** What one call of [client.operations.get(op)] gives back. *)
Inductive PollReply :=
| StillRunning
| Finished
| GetRaises (e : Exn).

(** The operation handle returned by a submission: whether it is done
    at once, and the replies to the polls that follow; once they are used
    up the operation stays unfinished. *)
Record Submission := { done_at_once : bool; replies : list PollReply }.

(** The remote service as one job sees it: what the [n]-th submission
    does, and what the [n]-th download (fetching and saving the video)
    does: the bytes saved, or an exception. *)
Record Remote := {
  generate_videos : nat -> Result Submission;
  download : nat -> Result string
}.

(** What a job does towards the remote service, in order. *)
Inductive Event :=
| Submit (attempt : nat)
| Backoff (seconds : Z)
| Download (download_attempt : nat)
| DownloadDelay (seconds : Z).

Definition max_poll_time : Z := 600.
Definition max_retries : nat := 3.
Definition download_retries : nat := 3.

Definition is_transient (c : ExnClass) : bool :=
  match c with
  | TimeoutError | RequestsTimeout | OSError => true
  | AttributeError | OtherException => false
  end.

(** The [while not op.done] loop.  The clock advances with
    [time.sleep(10)] only; an operation that never finishes runs into the
    budget. *)
Fixpoint poll (elapsed : Z) (done : bool) (replies : list PollReply)
    {struct replies} : Result unit :=
  let timeout :=
    Raise {| exn_class := TimeoutError;
             str := "Video generation exceeded 600s timeout" |} in
  if done then Ok tt
  else if max_poll_time <? elapsed then timeout
  else
    match replies with
    | [] => timeout
    | StillRunning :: rest => poll (elapsed + 10) false rest
    | Finished :: rest => poll (elapsed + 10) true rest
    | GetRaises e :: _ => Raise e
    end.

(** One pass through the body of the retry loop: submit, then poll. *)
Definition submit_and_poll (remote : Remote) (attempt : nat) : Result unit :=
  match generate_videos remote attempt with
  | Raise e => Raise e
  | Ok op => poll 0 (done_at_once op) (replies op)
  end.

(** [for attempt in range(max_retries)], over the attempts still to
    run, with the current [retry_delay].  Falling out of the loop would
    leave [op] unbound, and its first use raises. *)
Fixpoint generation_loop (remote : Remote) (attempts : list nat)
    (retry_delay : Z) : Result unit * list Event :=
  match attempts with
  | [] =>
      (Raise {| exn_class := OtherException;
                str := "cannot access local variable 'op'" |}, [])
  | attempt :: rest =>
      match submit_and_poll remote attempt with
      | Ok _ => (Ok tt, [Submit attempt])
      | Raise e =>
          match exn_class e with
          | AttributeError =>
              (Raise (Exception
                 ("The google-genai package needs to be updated. " +:+
                  "Please run: pip install --upgrade google-genai>=1.3.0")),
               [Submit attempt])
          | TimeoutError | RequestsTimeout | OSError =>
              if (attempt <? max_retries - 1)%nat then
                let '(r, events) := generation_loop remote rest (retry_delay * 2) in
                (r, Submit attempt :: Backoff retry_delay :: events)
              else
                (Raise (Exception
                   ("Failed after " +:+ pretty max_retries +:+ " attempts: " +:+ str e)),
                 [Submit attempt])
          | OtherException => (Raise e, [Submit attempt])
          end
      end
  end.

(** [for download_attempt in range(download_retries)]: the bytes
    saved, if any. *)
Fixpoint download_loop (remote : Remote) (attempts : list nat)
    : Result (option string) * list Event :=
  match attempts with
  | [] => (Ok None, [])
  | download_attempt :: rest =>
      match download remote download_attempt with
      | Ok video => (Ok (Some video), [Download download_attempt])
      | Raise e =>
          if is_transient (exn_class e) then
            if (download_attempt <? download_retries - 1)%nat then
              let '(r, events) := download_loop remote rest in
              (r, Download download_attempt :: DownloadDelay 5 :: events)
            else
              (Raise (Exception
                 ("Failed to download video after " +:+ pretty download_retries +:+
                  " attempts: " +:+ str e)),
               [Download download_attempt])
          else (Raise e, [Download download_attempt])
      end
  end.

(** [f"{segment_index:03d}"] *)
Definition pad3 (n : nat) : string :=
  let digits := pretty n in
  String.concat EmptyString (replicate (3 - String.length digits) "0") +:+ digits.

(** [range(n)] for a count. *)
Definition range (n : nat) : list nat := seq 0 n.

(** [f"{output_dir}/segment_{segment_index:03d}.mp4"] *)
Definition output_path_of (output_dir : string) (segment_index : nat) : string :=
  output_dir +:+ "/segment_" +:+ pad3 segment_index +:+ ".mp4".

(** The prompt sent to the video model; an empty genre counts as none. *)
Definition veo3_prompt_of (genre : option string) (lyrics_prompt : string) : string :=
  if truthy_opt genre
  then "create a short music video with this genre: " +:+ default EmptyString genre +:+
       " visualizing these lyrics: " +:+ lyrics_prompt
  else "create a short music video visualizing these lyrics: " +:+ lyrics_prompt.

(** [get_cache_key("video", veo3_prompt, segment_index)] *)
Definition video_cache_key (get_cache_key : list Arg -> string)
    (veo3_prompt : string) (segment_index : nat) : string :=
  get_cache_key [AStr "video"; AStr veo3_prompt; AInt (Z.of_nat segment_index)].

(** [raise Exception(f"Failed to generate video segment {segment_index}: {str(e)}")] *)
Definition segment_failure (segment_index : nat) (e : Exn) : Exn :=
  Exception ("Failed to generate video segment " +:+ pretty segment_index +:+
             ": " +:+ str e).

(** [generate_video_segment]: the outcome, the disk afterwards and what
    was asked of the remote service.  [output_dir] is taken to exist. *)
Definition generate_video_segment (get_cache_key : list Arg -> string)
    (remote : Remote) (disk : Disk) (lyrics_prompt : string)
    (segment_index : nat) (genre : option string) (output_dir : string)
    (use_cache : bool) : Result string * Disk * list Event :=
  let output_path := output_path_of output_dir segment_index in
  let veo3_prompt := veo3_prompt_of genre lyrics_prompt in
  let cache_key := video_cache_key get_cache_key veo3_prompt segment_index in
  let cached_file :=
    if use_cache then get_cached_file disk cache_key "mp4" else None in
  if truthy_opt cached_file then
    match copy disk (default EmptyString cached_file) output_path with
    | Ok disk' => (Ok output_path, disk', [])
    | Raise e => (Raise e, disk, [])
    end
  else
    match generation_loop remote (range max_retries) 5 with
    | (Raise e, events) => (Raise (segment_failure segment_index e), disk, events)
    | (Ok _, events) =>
        match download_loop remote (range download_retries) with
        | (Raise e, events') =>
            (Raise (segment_failure segment_index e), disk, events ++ events')
        | (Ok saved, events') =>
            let disk1 :=
              match saved with
              | Some video => <[output_path := video]> disk
              | None => disk
              end in
            if use_cache then
              match save_file_to_cache disk1 cache_key output_path "mp4" with
              | Ok (_, disk2) => (Ok output_path, disk2, events ++ events')
              | Raise e =>
                  (Raise (segment_failure segment_index e), disk1, events ++ events')
              end
            else (Ok output_path, disk1, events ++ events')
        end
    end.

(** The result a worker reports: [(index, path, error)]. *)
Abbreviation JobResult := (nat * option string * option string)%type.

(** [generate_segment_worker].  [client index] is the remote service
    as the job of segment [index] sees it, and [disk] the disk when the
    batch starts: the jobs run side by side and write files of their own
    (the output path and the cache key both carry the index). *)
Definition generate_segment_worker (get_cache_key : list Arg -> string)
    (client : nat -> Remote) (disk : Disk) (genre : option string)
    (output_dir : string) (use_cache : bool)
    (segment_data : nat * Transcriber.Segment) : JobResult :=
  let '(index, (start_time, end_time, lyrics)) := segment_data in
  match (generate_video_segment get_cache_key (client index) disk lyrics index
           genre output_dir use_cache).1.1 with
  | Ok video_path => (index, Some video_path, None)
  | Raise e => (index, None, Some (str e))
  end.

(** [enumerate(l)] *)
Definition enumerate {A : Type} (l : list A) : list (nat * A) :=
  zip (seq 0 (length l)) l.

(** The [for future in as_completed(futures)] loop over the futures in
    the order they complete, each with its result, filling
    [video_results]. *)
Fixpoint collect (completed : list JobResult)
    (video_results : gmap nat (option string))
    : Result (gmap nat (option string)) :=
  match completed with
  | [] => Ok video_results
  | (index, video_path, error) :: rest =>
      if truthy_opt error then
        Raise (Exception ("Failed to generate segment " +:+ pretty index +:+ ": " +:+
                          default EmptyString error))
      else collect rest (<[index := video_path]> video_results)
  end.

(** [[video_results[i] for i in range(n)]]: a missing key raises
    [KeyError]. *)
Fixpoint in_order (video_results : gmap nat (option string)) (indices : list nat)
    : Result (list (option string)) :=
  match indices with
  | [] => Ok []
  | i :: rest =>
      match video_results !! i with
      | None => Raise {| exn_class := OtherException; str := pretty i |}
      | Some video_path =>
          match in_order video_results rest with
          | Ok paths => Ok (video_path :: paths)
          | Raise e => Raise e
          end
      end
  end.

(** [generate_all_videos].  The pool runs one worker per segment;
    [completion_order] lists the positions of the futures in the order in
    which [as_completed] hands them over.  A pool of no workers is refused
    by the executor. *)
Definition generate_all_videos (get_cache_key : list Arg -> string)
    (client : nat -> Remote) (disk : Disk) (completion_order : list nat)
    (video_segments : list Transcriber.Segment) (genre : option string)
    (output_dir : string) (use_cache : bool) (max_workers : Z)
    : Result (list (option string)) :=
  if max_workers <=? 0 then
    Raise {| exn_class := OtherException;
             str := "max_workers must be greater than 0" |}
  else
    let futures :=
      map (generate_segment_worker get_cache_key client disk genre output_dir use_cache)
          (enumerate video_segments) in
    let completed :=
      omap (fun position => futures !! position) completion_order in
    match collect completed ∅ with
    | Raise e => Raise e
    | Ok video_results => in_order video_results (range (length video_segments))
    end.

End VideoGenerator.

(** ** [utils/video_stitcher.py]: the assembler *)

Module VideoStitcher.
Import Py.

(** A clip of the media toolkit: the file it was read from and its
    duration. *)
Record Clip := { clip_source : string; clip_duration : Q }.

(** [clip.subclip(0, t)] *)
Definition subclip (clip : Clip) (t : Q) : Clip :=
  {| clip_source := clip_source clip; clip_duration := t |}.

(** A composed video: its visual track (the clips in order), the
    duration it plays for, and the audio file set on it. *)
Record Video := {
  video_clips : list Clip;
  video_duration : Q;
  video_audio : option string
}.

(** Files on disk: a media file to read (of some duration), or a video
    written by [write_videofile]. *)
Inductive File :=
| MediaFile (duration : Q)
| Written (v : Video).

Definition file_duration (f : File) : Q :=
  match f with
  | MediaFile d => d
  | Written v => video_duration v
  end.

Abbreviation Disk := (gmap string File).

(** [VideoFileClip(path)] and [AudioFileClip(path)]: opening a missing
    file raises [OSError]. *)
Definition VideoFileClip (disk : Disk) (video_path : string) : Result Clip :=
  match disk !! video_path with
  | Some f => Ok {| clip_source := video_path; clip_duration := file_duration f |}
  | None => Raise {| exn_class := OSError; str := "file not found" |}
  end.

Definition AudioFileClip (disk : Disk) (audio_path : string) : Result Q :=
  match disk !! audio_path with
  | Some f => Ok (file_duration f)
  | None => Raise {| exn_class := OSError; str := "file not found" |}
  end.

Definition sum_durations (clips : list Clip) : Q :=
  fold_right (fun c acc => (clip_duration c + acc)%Q) 0%Q clips.

(** [concatenate_videoclips(clips, method="compose")] of the media toolkit:
    it takes the maximum over the clips' sizes, which raises on an empty
    list; otherwise the clips play one after the other. *)
Definition concatenate_videoclips (clips : list Clip) : Result Video :=
  match clips with
  | [] => Raise {| exn_class := OtherException;
                   str := "max() arg is an empty sequence" |}
  | _ => Ok {| video_clips := clips;
               video_duration := sum_durations clips;
               video_audio := None |}
  end.

(** [video.set_audio(audio)] *)
Definition set_audio (v : Video) (audio_path : string) : Video :=
  {| video_clips := video_clips v;
     video_duration := video_duration v;
     video_audio := Some audio_path |}.

(** [video.subclip(0, t)] on a composed video *)
Definition video_subclip (v : Video) (t : Q) : Video :=
  {| video_clips := video_clips v;
     video_duration := t;
     video_audio := video_audio v |}.

(** The [for i, video_path in enumerate(video_paths)] loop, carrying
    [clips] and [total_video_duration]; a [break] returns what was
    collected so far. *)
Fixpoint load_clips (disk : Disk) (video_paths : list string)
    (song_duration : Q) (clips : list Clip) (total_video_duration : Q)
    : Result (list Clip * Q) :=
  match video_paths with
  | [] => Ok (clips, total_video_duration)
  | video_path :: rest =>
      match VideoFileClip disk video_path with
      | Raise e => Raise e
      | Ok clip =>
          let remaining_duration := (song_duration - total_video_duration)%Q in
          if leb remaining_duration 0 then Ok (clips, total_video_duration)
          else
            let clip :=
              if ltb remaining_duration (clip_duration clip)
              then subclip clip remaining_duration
              else clip in
            load_clips disk rest song_duration (clips ++ [clip])
                       (total_video_duration + clip_duration clip)%Q
      end
  end.

(** The body of the [try] block: the video to export, before it is
    written. *)
Definition compose (disk : Disk) (video_paths : list string)
    (audio_path : string) (song_duration : Q) : Result Video :=
  match load_clips disk video_paths song_duration [] 0%Q with
  | Raise e => Raise e
  | Ok (clips, _) =>
      match concatenate_videoclips clips with
      | Raise e => Raise e
      | Ok final_video =>
          match AudioFileClip disk audio_path with
          | Raise e => Raise e
          | Ok audio_duration =>
              let final_video := set_audio final_video audio_path in
              let final_video :=
                if ltb audio_duration (video_duration final_video)
                then video_subclip final_video audio_duration
                else final_video in
              Ok final_video
          end
      end
  end.

(** [stitch_videos]: the outcome and the disk afterwards.  Every
    exception of the [try] block is raised again as
    [Exception("Failed to stitch videos: ...")]. *)
Definition stitch_videos (disk : Disk) (video_paths : list string)
    (audio_path : string) (song_duration : Q) (output_path : string)
    : Result string * Disk :=
  match compose disk video_paths audio_path song_duration with
  | Raise e => (Raise (Exception ("Failed to stitch videos: " +:+ str e)), disk)
  | Ok final_video => (Ok output_path, <[output_path := Written final_video]> disk)
  end.

End VideoStitcher.

(** * Properties *)

Module PyFacts.
Import Py.

Lemma ltb_lt (a b : Q) : ltb a b = true <-> (a < b)%Q.
Proof.
  unfold ltb. rewrite Qlt_alt. destruct (a ?= b)%Q; split; congruence.
Qed.

Lemma ltb_ge (a b : Q) : ltb a b = false <-> (b <= a)%Q.
Proof.
  rewrite <- not_true_iff_false, ltb_lt. split.
  - apply Qnot_lt_le.
  - apply Qle_not_lt.
Qed.

Lemma min_spec (a b : Q) :
  ((b < a)%Q /\ min a b = b) \/ ((a <= b)%Q /\ min a b = a).
Proof.
  unfold min. destruct (ltb b a) eqn:E.
  - left. split; [by apply ltb_lt|done].
  - right. split; [by apply ltb_ge|done].
Qed.

Lemma length_range (n : Z) : length (range n) = Z.to_nat n.
Proof. unfold range. by rewrite length_map, length_seq. Qed.

Lemma lookup_range (n : Z) (i : nat) :
  (i < Z.to_nat n)%nat -> range n !! i = Some (Z.of_nat i).
Proof.
  intros Hi. unfold range. rewrite list_lookup_fmap.
  rewrite lookup_seq_lt by done. done.
Qed.

Lemma length_slice_to (n : nat) (s : string) : (String.length (slice_to n s) <= n)%nat.
Proof.
  revert s. induction n as [|n IH]; intros [|c s]; simpl; try lia.
  specialize (IH s). lia.
Qed.

End PyFacts.

Module TranscriberFacts.
Import Py PyFacts Transcriber.

(** The half-open overlap test of the inner loop, as a predicate on a
    chunk: both ends present, [cs < we] and [ce > ws]. *)
Definition overlapsb (ws we : Q) (c : Chunk) : bool :=
  match get_timestamp c with
  | (Some cs, Some ce) => ltb cs we && ltb ws ce
  | _ => false
  end.

(** The windows of a song, following the description: window [i] is
    [[8 i, min (8 (i + 1), d))] and carries the joined stripped texts of the
    overlapping chunks, or the full transcript when there is none. *)
Definition window_start (i : Z) : Q := inject_Z (i * 8).
Definition window_end (d : Q) (i : Z) : Q := min (inject_Z ((i + 1) * 8)) d.
Definition window_texts (chunks : list Chunk) (d : Q) (i : Z) : list string :=
  map (fun c => strip (chunk_text c))
      (List.filter (overlapsb (window_start i) (window_end d i)) chunks).
Definition window_lyrics (tr : Transcription) (d : Q) (i : Z) : string :=
  match window_texts (get_chunks tr) d i with
  | [] => get_text tr
  | texts => join " " texts
  end.
Definition window (tr : Transcription) (d : Q) (i : Z) : Segment :=
  (window_start i, window_end d i, window_lyrics tr d i).

Lemma chunk_loop (ws we : Q) (chunks : list Chunk) (acc : list string) :
  fold_left (chunk_step ws we) chunks acc =
  acc ++ map (fun c => strip (chunk_text c)) (List.filter (overlapsb ws we) chunks).
Proof.
  revert acc. induction chunks as [|c chunks IH]; intros acc; simpl.
  - by rewrite app_nil_r.
  - rewrite IH. unfold chunk_step, overlapsb.
    destruct (get_timestamp c) as [[cs|] [ce|]]; try done.
    destruct (ltb cs we && ltb ws ce); [|done].
    simpl. by rewrite <- app_assoc.
Qed.

Lemma overlapping_filter (ws we : Q) (chunks : list Chunk) :
  overlapping ws we chunks =
  map (fun c => strip (chunk_text c)) (List.filter (overlapsb ws we) chunks).
Proof. unfold overlapping. by rewrite chunk_loop. Qed.

Lemma segment_step_window tr d (acc : list Segment) (i : Z) :
  segment_step tr (get_chunks tr) d acc i = acc ++ [window tr d i].
Proof.
  unfold segment_step. rewrite overlapping_filter. f_equal.
  unfold window, window_lyrics, window_texts, window_start, window_end.
  do 2 f_equal. by destruct (map _ _).
Qed.

Lemma segment_loop tr d (l : list Z) (acc : list Segment) :
  fold_left (segment_step tr (get_chunks tr) d) l acc =
  acc ++ map (window tr d) l.
Proof.
  revert acc. induction l as [|i l IH]; intros acc.
  - by rewrite app_nil_r.
  - cbn [fold_left map]. rewrite IH, segment_step_window.
    by rewrite <- app_assoc.
Qed.

(** Both paths of the mapper produce the same windows. *)
Lemma map_to_video_segments_map tr d :
  map_to_video_segments tr d = map (window tr d) (range (ceil (d / 8))).
Proof.
  unfold map_to_video_segments.
  destruct (get_chunks tr) as [|c cs] eqn:E.
  - apply map_ext. intros i. unfold window, window_lyrics, window_texts.
    by rewrite E.
  - rewrite <- E. by rewrite segment_loop.
Qed.

Lemma length_map_to_video_segments tr d :
  length (map_to_video_segments tr d) = Z.to_nat (ceil (d / 8)).
Proof. by rewrite map_to_video_segments_map, length_map, length_range. Qed.

Lemma lookup_map_to_video_segments tr d (i : nat) s :
  map_to_video_segments tr d !! i = Some s ->
  (i < Z.to_nat (ceil (d / 8)))%nat /\ s = window tr d (Z.of_nat i).
Proof.
  intros H. pose proof (lookup_lt_Some _ _ _ H) as Hlt.
  rewrite length_map_to_video_segments in Hlt. split; [done|].
  rewrite map_to_video_segments_map, list_lookup_fmap in H.
  rewrite lookup_range in H by done. simpl in H. congruence.
Qed.

Lemma ceil_bounds (d : Q) :
  (inject_Z (ceil (d / 8)) * 8 - 8 < d /\ d <= inject_Z (ceil (d / 8)) * 8)%Q.
Proof.
  unfold ceil.
  pose proof (Qle_ceiling (d / 8)) as Hle.
  pose proof (Qceiling_lt (d / 8)) as Hlt.
  unfold Z.sub in Hlt. rewrite inject_Z_plus, inject_Z_opp in Hlt.
  change (inject_Z 1) with 1%Q in Hlt.
  assert (d == d / 8 * 8)%Q as Hd by field.
  revert Hle Hlt Hd.
  generalize (inject_Z (Qceiling (d / 8))) (d / 8)%Q. intros n q. lra.
Qed.

Lemma lookup_window tr d (i : nat) :
  (i < Z.to_nat (ceil (d / 8)))%nat ->
  map_to_video_segments tr d !! i = Some (window tr d (Z.of_nat i)).
Proof.
  intros Hi. rewrite map_to_video_segments_map, list_lookup_fmap.
  by rewrite lookup_range.
Qed.

Lemma inject_Z_mul8 (z : Z) : (inject_Z (z * 8) == inject_Z z * 8)%Q.
Proof. by rewrite inject_Z_mult. Qed.

Lemma index_below_ceil (d : Q) (i : nat) :
  (i < Z.to_nat (ceil (d / 8)))%nat ->
  (inject_Z (Z.of_nat i) + 1 <= inject_Z (ceil (d / 8)))%Q.
Proof.
  intros Hi. change 1%Q with (inject_Z 1). rewrite <- inject_Z_plus.
  rewrite <- Zle_Qle. lia.
Qed.

Lemma ceil_pos (d : Q) : (0 < d)%Q -> 0 < ceil (d / 8).
Proof.
  intros Hd. destruct (ceil_bounds d) as [_ Hle].
  rewrite Zlt_Qlt. change (inject_Z 0) with 0%Q. lra.
Qed.

Lemma ceil_nonpos (d : Q) : (d <= 0)%Q -> ceil (d / 8) <= 0.
Proof.
  intros Hd. destruct (ceil_bounds d) as [Hlt _].
  assert (ceil (d / 8) < 1) as H; [|lia].
  rewrite Zlt_Qlt. change (inject_Z 1) with 1%Q. lra.
Qed.

(** C1. For a positive duration the mapper returns exactly
    [ceil (d / 8)] segments; segment [i] spans
    [[8 i, min (8 (i + 1), d))]; starts increase strictly, each window
    starts where the previous one ends, and the last window ends at [d].
    For [d <= 0] it returns no segment.  Holds on both paths (with and
    without chunks). *)
Theorem map_to_video_segments_windows (tr : Transcription) (d : Q) :
  let segs := map_to_video_segments tr d in
  ((0 < d)%Q ->
     Z.of_nat (length segs) = ceil (d / 8) /\
     (forall (i : nat) (s : Segment), segs !! i = Some s ->
        seg_start s = inject_Z (Z.of_nat i * 8) /\
        seg_end s = min (inject_Z ((Z.of_nat i + 1) * 8)) d /\
        (seg_start s < seg_end s)%Q) /\
     (forall (i : nat) (s s' : Segment),
        segs !! i = Some s -> segs !! S i = Some s' ->
        (seg_start s < seg_start s')%Q /\ (seg_start s' == seg_end s)%Q) /\
     (exists s : Segment, last segs = Some s /\ (seg_end s == d)%Q)) /\
  ((d <= 0)%Q -> segs = []).
Proof.
  intros segs. subst segs. split.
  - intros Hd. pose proof (ceil_pos d Hd) as Hn.
    destruct (ceil_bounds d) as [Hlo Hhi].
    split; [|split; [|split]].
    + rewrite length_map_to_video_segments. lia.
    + intros i s Hs. apply lookup_map_to_video_segments in Hs as [Hi ->].
      split; [done|]. split; [done|].
      apply index_below_ceil in Hi.
      unfold window, seg_start, seg_end, window_start, window_end. simpl.
      pose proof (inject_Z_mul8 (Z.of_nat i)) as E1.
      pose proof (inject_Z_mul8 (Z.of_nat i + 1)) as E2.
      rewrite inject_Z_plus in E2. change (inject_Z 1) with 1%Q in E2.
      destruct (min_spec (inject_Z ((Z.of_nat i + 1) * 8)) d) as [[_ ->]|[_ ->]];
        lra.
    + intros i s s' Hs Hs'.
      apply lookup_map_to_video_segments in Hs as [_ ->].
      apply lookup_map_to_video_segments in Hs' as [Hi ->].
      split.
      * unfold window, seg_start, window_start. simpl.
        rewrite <- Zlt_Qlt. lia.
      * apply index_below_ceil in Hi.
        unfold window, seg_start, seg_end, window_start, window_end. simpl.
        rewrite Nat2Z.inj_succ in Hi |- *. unfold Z.succ in Hi |- *.
        pose proof (inject_Z_mul8 (Z.of_nat i + 1)) as E2.
        rewrite inject_Z_plus in Hi, E2. change (inject_Z 1) with 1%Q in Hi, E2.
        destruct (min_spec (inject_Z ((Z.of_nat i + 1) * 8)) d) as [[Hlt _]|[_ ->]];
          [lra|reflexivity].
    + exists (window tr d (ceil (d / 8) - 1)). split.
      * rewrite last_lookup, length_map_to_video_segments.
        rewrite lookup_window by lia. f_equal. f_equal. lia.
      * unfold window, seg_end, window_end. simpl.
        replace (ceil (d / 8) - 1 + 1) with (ceil (d / 8)) by lia.
        pose proof (inject_Z_mul8 (ceil (d / 8))) as E.
        destruct (min_spec (inject_Z (ceil (d / 8) * 8)) d) as [[_ ->]|[Hle ->]];
          [reflexivity|lra].
  - intros Hd. apply nil_length_inv.
    rewrite length_map_to_video_segments.
    pose proof (ceil_nonpos d Hd). lia.
Qed.

Lemma overlapsb_iff (ws we : Q) (c : Chunk) (cs ce : Q) :
  get_timestamp c = (Some cs, Some ce) ->
  overlapsb ws we c = true <-> (cs < we)%Q /\ (ws < ce)%Q.
Proof.
  intros E. unfold overlapsb. rewrite E.
  by rewrite andb_true_iff, !ltb_lt.
Qed.

(** Sample chunks with the time ranges [2, 3] and [8, 9]. *)
Definition chunk_2_3 : Chunk :=
  {| chunk_text := " la la "; chunk_timestamp := Some (Some 2%Q, Some 3%Q) |}.
Definition chunk_8_9 : Chunk :=
  {| chunk_text := "hey"; chunk_timestamp := Some (Some 8%Q, Some 9%Q) |}.

(** C3. For the window [[ws, we)] of any returned segment: one turn of the
    inner loop appends the stripped text of a chunk with time range
    [[cs, ce]] exactly when [cs < we] and [ce > ws], and otherwise leaves the
    list as it is; the collected list is the stripped texts of the chunks
    passing that test, in chunk order; when it is not empty the segment's
    text is its join with single spaces.  The chunk [[2, 3]] is taken by
    [[0, 8)] and not by [[8, 16)]; the chunk [[8, 9]] by [[8, 16)] and not
    by [[0, 8)]. *)
Theorem chunk_overlap_assignment (tr : Transcription) (d : Q) (i : nat)
    (s : Segment) :
  map_to_video_segments tr d !! i = Some s ->
  let ws := seg_start s in
  let we := seg_end s in
  let chunks := get_chunks tr in
  (forall (c : Chunk) (cs ce : Q) (acc : list string),
     get_timestamp c = (Some cs, Some ce) ->
     ((cs < we)%Q /\ (ce > ws)%Q ->
        chunk_step ws we acc c = acc ++ [strip (chunk_text c)]) /\
     (~ ((cs < we)%Q /\ (ce > ws)%Q) -> chunk_step ws we acc c = acc)) /\
  overlapping ws we chunks =
    map (fun c => strip (chunk_text c)) (List.filter (overlapsb ws we) chunks) /\
  (overlapping ws we chunks <> [] ->
     seg_text s = join " " (overlapping ws we chunks)) /\
  overlapping 0 8 [chunk_2_3; chunk_8_9] = ["la la"] /\
  overlapping 8 16 [chunk_2_3; chunk_8_9] = ["hey"].
Proof.
  intros Hs ws we chunks.
  apply lookup_map_to_video_segments in Hs as [_ ->].
  split; [|split; [|split; [|split]]].
  - intros c cs ce acc Hts. unfold chunk_step. rewrite Hts. split.
    + intros [H1 H2]. apply ltb_lt in H1, H2. by rewrite H1, H2.
    + intros Hn.
      destruct (ltb cs we) eqn:E1; [|done].
      destruct (ltb ws ce) eqn:E2; [|done].
      apply ltb_lt in E1, E2. by destruct Hn.
  - apply overlapping_filter.
  - intros Hne. rewrite overlapping_filter in Hne |- *.
    unfold seg_text, window, window_lyrics. simpl.
    fold (window_start (Z.of_nat i)) (window_end d (Z.of_nat i)).
    change (window_texts (get_chunks tr) d (Z.of_nat i))
      with (map (fun c => strip (chunk_text c))
              (List.filter (overlapsb ws we) chunks)).
    by destruct (map _ _).
  - reflexivity.
  - reflexivity.
Qed.

(** C7. Without chunks (an empty list or no [chunks] key) the mapper
    returns [ceil (d / 8)] windows that all carry the transcript's full
    text unchanged, on the same windows as any other transcription of the
    song; three of them for a duration of 20.  With chunks, a window that
    no chunk overlaps carries the full text too. *)
Theorem empty_chunks_fallback (tr : Transcription) (d : Q) :
  let segs := map_to_video_segments tr d in
  (get_chunks tr = [] ->
     length segs = Z.to_nat (ceil (d / 8)) /\
     Forall (fun s => seg_text s = get_text tr) segs /\
     (forall tr' : Transcription,
        map (fun s => (seg_start s, seg_end s)) segs =
        map (fun s => (seg_start s, seg_end s)) (map_to_video_segments tr' d))) /\
  (forall (i : nat) (s : Segment), segs !! i = Some s ->
     overlapping (seg_start s) (seg_end s) (get_chunks tr) = [] ->
     seg_text s = get_text tr) /\
  (forall text : string,
     map_to_video_segments {| tr_chunks := Some []; tr_text := Some text |} 20 =
     [(0, 8, text); (8, 16, text); (16, 20, text)]%Q) /\
  (forall text : string,
     map_to_video_segments {| tr_chunks := None; tr_text := Some text |} 20 =
     [(0, 8, text); (8, 16, text); (16, 20, text)]%Q).
Proof.
  intros segs. subst segs. split; [|split; [|split]].
  - intros Hnil. split; [|split].
    + apply length_map_to_video_segments.
    + unfold map_to_video_segments. rewrite Hnil.
      apply Forall_forall. intros s Hin.
      apply list_elem_of_In, in_map_iff in Hin.
      by destruct Hin as [j [<- _]].
    + intros tr'. by rewrite !map_to_video_segments_map, !map_map.
  - intros i s Hs Hnone.
    apply lookup_map_to_video_segments in Hs as [_ ->].
    rewrite overlapping_filter in Hnone.
    unfold seg_text, window, window_lyrics, window_texts. simpl.
    unfold seg_start, seg_end, window in Hnone. simpl in Hnone.
    by rewrite Hnone.
  - intros text. reflexivity.
  - intros text. reflexivity.
Qed.

(** A transcription with two chunks, for a song of 20 seconds. *)
Definition sample_transcription : Transcription :=
  {| tr_chunks := Some [chunk_2_3; chunk_8_9]; tr_text := Some "la la hey" |}.

Lemma map_to_video_segments_windows_witness :
  (0 < 20)%Q /\
  Z.of_nat (length (map_to_video_segments sample_transcription 20)) = 3 /\
  exists s : Segment,
    last (map_to_video_segments sample_transcription 20) = Some s /\
    (seg_end s == 20)%Q.
Proof.
  split; [reflexivity|].
  destruct (map_to_video_segments_windows sample_transcription 20) as [H _].
  destruct (H eq_refl) as (Hlen & _ & _ & Hlast).
  split; [exact Hlen|exact Hlast].
Defined.

Lemma chunk_overlap_assignment_witness :
  map_to_video_segments sample_transcription 20 !! 0%nat = Some (0%Q, 8%Q, "la la") /\
  seg_text (0%Q, 8%Q, "la la") =
    join " " (overlapping 0 8 (get_chunks sample_transcription)).
Proof.
  split; [reflexivity|].
  destruct (chunk_overlap_assignment sample_transcription 20 0 (0%Q, 8%Q, "la la")
              eq_refl) as (_ & _ & H & _).
  apply H. vm_compute. discriminate.
Defined.

Lemma empty_chunks_fallback_witness :
  get_chunks {| tr_chunks := None; tr_text := Some "la la hey" |} = [] /\
  Forall (fun s => seg_text s = "la la hey")
    (map_to_video_segments {| tr_chunks := None; tr_text := Some "la la hey" |} 20).
Proof.
  split; [reflexivity|].
  destruct (empty_chunks_fallback {| tr_chunks := None; tr_text := Some "la la hey" |} 20)
    as (H & _).
  destruct (H eq_refl) as (_ & Hall & _). exact Hall.
Defined.

End TranscriberFacts.

Module VideoStitcherFacts.
Import Py PyFacts VideoStitcher.

(** The duration of the media file at a path (0 when there is none). *)
Definition dur (disk : Disk) (path : string) : Q :=
  match disk !! path with Some f => file_duration f | None => 0%Q end.

(** The clip [VideoFileClip] reads at a path. *)
Definition full_clip (disk : Disk) (path : string) : Clip :=
  {| clip_source := path; clip_duration := dur disk path |}.

Definition total (disk : Disk) (paths : list string) : Q :=
  sum_durations (map (full_clip disk) paths).

Lemma leb_le (a b : Q) : leb a b = true <-> (a <= b)%Q.
Proof. apply Qle_bool_iff. Qed.

Lemma leb_gt (a b : Q) : leb a b = false <-> (b < a)%Q.
Proof.
  rewrite <- not_true_iff_false, leb_le. split.
  - apply Qnot_le_lt.
  - apply Qlt_not_le.
Qed.

Lemma VideoFileClip_Some (disk : Disk) (path : string) :
  is_Some (disk !! path) -> VideoFileClip disk path = Ok (full_clip disk path).
Proof.
  intros [f Hf]. unfold VideoFileClip, full_clip, dur. by rewrite Hf.
Qed.

Lemma sum_durations_app (l1 l2 : list Clip) :
  (sum_durations (l1 ++ l2) == sum_durations l1 + sum_durations l2)%Q.
Proof.
  induction l1 as [|c l1 IH]; simpl.
  - lra.
  - rewrite IH. lra.
Qed.

Lemma total_nonneg (disk : Disk) (paths : list string) :
  Forall (fun p => (0 <= dur disk p)%Q) paths -> (0 <= total disk paths)%Q.
Proof.
  unfold total. induction 1 as [|p paths Hp _ IH]; simpl; lra.
Qed.

(** While the running total stays below the target, clips are kept
    whole, one after the other. *)
Lemma load_clips_whole (disk : Disk) (T : Q) (pre rest : list string) :
  forall (clips : list Clip) (tot : Q),
  Forall (fun p => is_Some (disk !! p)) pre ->
  Forall (fun p => (0 <= dur disk p)%Q) pre ->
  (tot + total disk pre < T)%Q ->
  exists tot' : Q,
    (tot' == tot + total disk pre)%Q /\
    load_clips disk (pre ++ rest) T clips tot =
    load_clips disk rest T (clips ++ map (full_clip disk) pre) tot'.
Proof.
  induction pre as [|p pre IH]; intros clips tot Hex Hnn Hlt.
  - exists tot. split; [unfold total; simpl; lra|]. simpl. by rewrite app_nil_r.
  - inversion Hex as [|? ? Hp Hex']; subst.
    inversion Hnn as [|? ? Hp0 Hnn']; subst.
    pose proof (total_nonneg _ _ Hnn') as Hpre.
    assert (total disk (p :: pre) == dur disk p + total disk pre)%Q as Et
      by (unfold total; simpl; lra).
    cbn [app load_clips]. rewrite VideoFileClip_Some by done.
    assert (leb (T - tot) 0 = false) as -> by (apply leb_gt; lra).
    assert (ltb (T - tot) (clip_duration (full_clip disk p)) = false) as ->.
    { apply ltb_ge. simpl. lra. }
    destruct (IH (clips ++ [full_clip disk p])
                 (tot + clip_duration (full_clip disk p))%Q Hex' Hnn')
      as [tot' [Etot' Eload]].
    + simpl. lra.
    + exists tot'. split; [simpl in Etot'; lra|].
      rewrite Eload. by rewrite <- app_assoc.
Qed.

(** Three clips of 5 seconds each and a song of 12 seconds. *)
Definition disk_5_5_5 : Disk :=
  <["videos/segment_000.mp4" := MediaFile 5]>
  (<["videos/segment_001.mp4" := MediaFile 5]>
  (<["videos/segment_002.mp4" := MediaFile 5]>
  (<["downloads/song.mp3" := MediaFile 12]> ∅))).

Definition paths_5_5_5 : list string :=
  ["videos/segment_000.mp4"; "videos/segment_001.mp4"; "videos/segment_002.mp4"].

Lemma compose_of_clips (disk : Disk) (paths : list string) (audio_path : string)
    (T tot : Q) (clips : list Clip) (f : File) :
  load_clips disk paths T [] 0 = Ok (clips, tot) ->
  clips <> [] ->
  disk !! audio_path = Some f ->
  compose disk paths audio_path T =
  Ok (let v := {| video_clips := clips;
                  video_duration := sum_durations clips;
                  video_audio := Some audio_path |} in
      if ltb (file_duration f) (sum_durations clips)
      then video_subclip v (file_duration f) else v).
Proof.
  intros Hload Hne Hf. unfold compose. rewrite Hload.
  destruct clips as [|c0 clips']; [done|].
  unfold concatenate_videoclips, AudioFileClip. by rewrite Hf.
Qed.

Lemma load_clips_trim (disk : Disk) (pre post : list string) (c : string)
    (T : Q) :
  Forall (fun p => is_Some (disk !! p)) (pre ++ c :: post) ->
  Forall (fun p => (0 <= dur disk p)%Q) pre ->
  (total disk pre < T)%Q ->
  (T < total disk pre + dur disk c)%Q ->
  exists (trimmed : Clip) (tot : Q),
    load_clips disk (pre ++ c :: post) T [] 0 =
      Ok (map (full_clip disk) pre ++ [trimmed], tot) /\
    clip_source trimmed = c /\
    (clip_duration trimmed == T - total disk pre)%Q /\
    (tot == T)%Q.
Proof.
  intros Hex Hnn Hlt Hgt.
  apply Forall_app in Hex as [Hpre Hrest].
  inversion Hrest as [|? ? Hc Hpost]; subst.
  destruct (load_clips_whole disk T pre (c :: post) [] 0%Q Hpre Hnn)
    as [tot' [Etot' Eload]]; [lra|].
  rewrite Eload. cbn [load_clips app]. rewrite VideoFileClip_Some by done.
  assert (leb (T - tot') 0 = false) as -> by (apply leb_gt; lra).
  assert (ltb (T - tot') (clip_duration (full_clip disk c)) = true) as ->.
  { apply ltb_lt. simpl. lra. }
  exists (subclip (full_clip disk c) (T - tot')%Q).
  exists (tot' + (T - tot'))%Q.
  split; [|split; [done|split; simpl; lra]].
  destruct post as [|q post']; [done|].
  inversion Hpost as [|? ? Hq _]; subst.
  cbn [load_clips]. rewrite VideoFileClip_Some by done.
  assert (leb (T - (tot' + clip_duration (subclip (full_clip disk c) (T - tot')))) 0
          = true) as ->; [|done].
  apply leb_le. simpl. lra.
Qed.

(** C6. The assembler walks the clips in order and adds up their
    durations.  When the clip [c] would take the running total over the
    target, the clips before it are kept whole, [c] is cut to exactly what
    remains, and nothing after [c] is kept: the visual track adds up to the
    target, and (the audio being at least as long) so does the written
    video.  For clips of 5, 5 and 5 seconds and a target of 12 the track is
    the first two clips whole and the third cut to 2 seconds, 12 seconds in
    all. *)
Theorem stitch_trims_at_target :
  (forall (disk : Disk) (pre post : list string) (c audio_path output_path : string)
          (T : Q) (f : File),
     Forall (fun p => is_Some (disk !! p)) (pre ++ c :: post) ->
     Forall (fun p => (0 <= dur disk p)%Q) pre ->
     (total disk pre < T)%Q ->
     (T < total disk pre + dur disk c)%Q ->
     disk !! audio_path = Some f ->
     (T <= file_duration f)%Q ->
     exists (trimmed : Clip) (tot : Q) (v : Video),
       load_clips disk (pre ++ c :: post) T [] 0 =
         Ok (map (full_clip disk) pre ++ [trimmed], tot) /\
       clip_source trimmed = c /\
       (clip_duration trimmed == T - total disk pre)%Q /\
       (tot == T)%Q /\
       stitch_videos disk (pre ++ c :: post) audio_path T output_path =
         (Ok output_path, <[output_path := Written v]> disk) /\
       video_clips v = map (full_clip disk) pre ++ [trimmed] /\
       (video_duration v == T)%Q) /\
  load_clips disk_5_5_5 paths_5_5_5 12 [] 0 =
    Ok ([ {| clip_source := "videos/segment_000.mp4"; clip_duration := 5 |};
          {| clip_source := "videos/segment_001.mp4"; clip_duration := 5 |};
          {| clip_source := "videos/segment_002.mp4"; clip_duration := 2 |} ],
        12%Q) /\
  stitch_videos disk_5_5_5 paths_5_5_5 "downloads/song.mp3" 12
                "downloads/final_video.mp4" =
    (Ok "downloads/final_video.mp4",
     <["downloads/final_video.mp4" :=
         Written {| video_clips :=
                      [ {| clip_source := "videos/segment_000.mp4"; clip_duration := 5 |};
                        {| clip_source := "videos/segment_001.mp4"; clip_duration := 5 |};
                        {| clip_source := "videos/segment_002.mp4"; clip_duration := 2 |} ];
                    video_duration := 12;
                    video_audio := Some "downloads/song.mp3" |}]> disk_5_5_5).
Proof.
  split; [|split].
  - intros disk pre post c audio_path output_path T f Hex Hnn Hlt Hgt Hf Hlen.
    destruct (load_clips_trim disk pre post c T Hex Hnn Hlt Hgt)
      as (trimmed & tot & Hload & Hsrc & Hdur & Htot).
    assert (sum_durations (map (full_clip disk) pre ++ [trimmed]) == T)%Q as Hsum.
    { rewrite sum_durations_app. simpl. fold (total disk pre). lra. }
    exists trimmed, tot.
    eexists. split; [exact Hload|]. split; [done|]. split; [done|].
    split; [done|].
    unfold stitch_videos.
    rewrite (compose_of_clips disk _ audio_path T tot _ f Hload); [|by destruct pre|done].
    assert (ltb (file_duration f)
              (sum_durations (map (full_clip disk) pre ++ [trimmed])) = false) as ->.
    { apply ltb_ge. lra. }
    cbv zeta. split; [reflexivity|]. split; [reflexivity|]. simpl. exact Hsum.
  - vm_compute. reflexivity.
  - vm_compute. reflexivity.
Qed.

(** One clip of 5 seconds and a song of 12 seconds. *)
Definition disk_short : Disk :=
  <["videos/segment_000.mp4" := MediaFile 5]>
  (<["downloads/song.mp3" := MediaFile 12]> ∅).

(** Clips that end before the target: the call returns normally and
    writes a video of 5 seconds for a song of 12. *)
Lemma stitch_short_clips_succeeds :
  (total disk_short ["videos/segment_000.mp4"] < 12)%Q /\
  stitch_videos disk_short ["videos/segment_000.mp4"] "downloads/song.mp3" 12
                "downloads/final_video.mp4" =
    (Ok "downloads/final_video.mp4",
     <["downloads/final_video.mp4" :=
         Written {| video_clips :=
                      [ {| clip_source := "videos/segment_000.mp4"; clip_duration := 5 |} ];
                    video_duration := 5;
                    video_audio := Some "downloads/song.mp3" |}]> disk_short) /\
  ~ (exists e : Exn,
       stitch_videos disk_short ["videos/segment_000.mp4"] "downloads/song.mp3" 12
                     "downloads/final_video.mp4" = (Raise e, disk_short)).
Proof.
  assert (stitch_videos disk_short ["videos/segment_000.mp4"] "downloads/song.mp3" 12
                "downloads/final_video.mp4" =
    (Ok "downloads/final_video.mp4",
     <["downloads/final_video.mp4" :=
         Written {| video_clips :=
                      [ {| clip_source := "videos/segment_000.mp4"; clip_duration := 5 |} ];
                    video_duration := 5;
                    video_audio := Some "downloads/song.mp3" |}]> disk_short)) as E
    by (vm_compute; reflexivity).
  split; [vm_compute; reflexivity|]. split; [exact E|].
  intros [e He]. rewrite E in He. discriminate He.
Qed.

(** C2, as the code has it.  With an empty list of clips the call raises
    and the disk is left as it was.  With clips that end before the target
    (and the audio file present) the call does not raise: it writes a video
    whose visual track is the given clips and nothing else, so no blank
    frames are added, and which is shorter than the target. *)
Theorem stitch_empty_fails_short_succeeds :
  (forall (disk : Disk) (audio_path output_path : string) (T : Q),
     exists e : Exn,
       stitch_videos disk [] audio_path T output_path = (Raise e, disk)) /\
  (forall (disk : Disk) (paths : list string) (audio_path output_path : string)
          (T : Q) (f : File),
     paths <> [] ->
     Forall (fun p => is_Some (disk !! p)) paths ->
     Forall (fun p => (0 <= dur disk p)%Q) paths ->
     (total disk paths < T)%Q ->
     disk !! audio_path = Some f ->
     exists v : Video,
       stitch_videos disk paths audio_path T output_path =
         (Ok output_path, <[output_path := Written v]> disk) /\
       video_clips v = map (full_clip disk) paths /\
       (video_duration v <= total disk paths)%Q /\
       (video_duration v < T)%Q).
Proof.
  split.
  - intros disk audio_path output_path T. eexists. reflexivity.
  - intros disk paths audio_path output_path T f Hne Hex Hnn Hlt Hf.
    destruct (load_clips_whole disk T paths [] [] 0%Q Hex Hnn)
      as [tot' [Etot' Eload]]; [lra|].
    rewrite app_nil_r in Eload. cbn [load_clips app] in Eload.
    unfold stitch_videos.
    rewrite (compose_of_clips disk _ audio_path T tot' _ f Eload);
      [|by destruct paths|done].
    cbv zeta. eexists. split; [reflexivity|].
    fold (total disk paths).
    destruct (ltb (file_duration f) (total disk paths)) eqn:E.
    + apply ltb_lt in E. simpl. split; [done|]. lra.
    + simpl. fold (total disk paths). split; [done|]. lra.
Qed.

Lemma stitch_trims_at_target_witness :
  exists (trimmed : Clip) (tot : Q),
    load_clips disk_5_5_5 paths_5_5_5 12 [] 0 =
      Ok ([full_clip disk_5_5_5 "videos/segment_000.mp4";
           full_clip disk_5_5_5 "videos/segment_001.mp4"; trimmed], tot) /\
    (clip_duration trimmed == 2)%Q /\ (tot == 12)%Q.
Proof.
  destruct stitch_trims_at_target as [H _].
  destruct (H disk_5_5_5
              ["videos/segment_000.mp4"; "videos/segment_001.mp4"] []
              "videos/segment_002.mp4" "downloads/song.mp3"
              "downloads/final_video.mp4" 12%Q (MediaFile 12))
    as (trimmed & tot & v & Hload & _ & Hdur & Htot & _).
  - repeat constructor; by eexists.
  - repeat constructor; vm_compute; discriminate.
  - vm_compute. reflexivity.
  - vm_compute. reflexivity.
  - reflexivity.
  - vm_compute. discriminate.
  - exists trimmed, tot. split; [exact Hload|]. split; [|exact Htot].
    rewrite Hdur. vm_compute. reflexivity.
Defined.

Lemma stitch_empty_fails_short_succeeds_witness :
  (exists e : Exn,
     stitch_videos disk_short [] "downloads/song.mp3" 12 "downloads/final_video.mp4" =
       (Raise e, disk_short)) /\
  (exists v : Video,
     stitch_videos disk_short ["videos/segment_000.mp4"] "downloads/song.mp3" 12
                   "downloads/final_video.mp4" =
       (Ok "downloads/final_video.mp4",
        <["downloads/final_video.mp4" := Written v]> disk_short) /\
     (video_duration v < 12)%Q).
Proof.
  destruct stitch_empty_fails_short_succeeds as [Hempty Hshort]. split.
  - apply Hempty.
  - destruct (Hshort disk_short ["videos/segment_000.mp4"] "downloads/song.mp3"
                "downloads/final_video.mp4" 12%Q (MediaFile 12))
      as (v & Hv & _ & _ & Hlt).
    + discriminate.
    + repeat constructor; by eexists.
    + repeat constructor; vm_compute; discriminate.
    + vm_compute. reflexivity.
    + reflexivity.
    + exists v. split; [exact Hv|exact Hlt].
Defined.

End VideoStitcherFacts.

Module VideoGeneratorFacts.
Import Py PyFacts CacheManager VideoGenerator.

(** The waits between submissions, and between downloads, in a trace. *)
Definition backoffs (events : list Event) : list Z :=
  omap (fun ev => match ev with Backoff s => Some s | _ => None end) events.

Definition download_delays (events : list Event) : list Z :=
  omap (fun ev => match ev with DownloadDelay s => Some s | _ => None end) events.

Definition is_failure {A : Type} (r : Result A) : Prop := exists e, r = Raise e.

(** The longest trace of each leg: three tries with the waits between
    them. *)
Definition generation_schedule : list Event :=
  [Submit 0; Backoff 5; Submit 1; Backoff 10; Submit 2].

Definition download_schedule : list Event :=
  [Download 0; DownloadDelay 5; Download 1; DownloadDelay 5; Download 2].

(** A remote service whose operations never finish. *)
Definition never_finishes : Remote :=
  {| generate_videos := fun _ => Ok {| done_at_once := false; replies := [] |};
     download := fun _ => Ok "video" |}.

(** Three submissions that all run into the poll budget: the job waits 5
    and then 10 seconds between them and gives up after the third; it never
    waits 20 seconds. *)
Lemma backoff_waits_5_then_10 :
  generation_loop never_finishes (range max_retries) 5 =
    (Raise (Exception
       "Failed after 3 attempts: Video generation exceeded 600s timeout"),
     [Submit 0; Backoff 5; Submit 1; Backoff 10; Submit 2]) /\
  backoffs (generation_loop never_finishes (range max_retries) 5).2 = [5; 10] /\
  backoffs (generation_loop never_finishes (range max_retries) 5).2 <> [5; 10; 20].
Proof. split; [|split]; [vm_compute; reflexivity..|vm_compute; discriminate]. Qed.

(** One turn of the submit and poll loop, by what the attempt does. *)
Lemma generation_loop_ok remote a rest d :
  submit_and_poll remote a = Ok tt ->
  generation_loop remote (a :: rest) d = (Ok tt, [Submit a]).
Proof. intros E. cbn [generation_loop]. by rewrite E. Qed.

Lemma generation_loop_fatal remote a rest d e :
  submit_and_poll remote a = Raise e ->
  is_transient (exn_class e) = false ->
  exists e', generation_loop remote (a :: rest) d = (Raise e', [Submit a]).
Proof.
  intros E Hc. cbn [generation_loop]. rewrite E.
  destruct (exn_class e); try discriminate Hc; eauto.
Qed.

Lemma generation_loop_retry remote a rest d e :
  submit_and_poll remote a = Raise e ->
  is_transient (exn_class e) = true ->
  (a < max_retries - 1)%nat ->
  generation_loop remote (a :: rest) d =
    ((generation_loop remote rest (d * 2)).1,
     Submit a :: Backoff d :: (generation_loop remote rest (d * 2)).2).
Proof.
  intros E Hc Ha. cbn [generation_loop]. rewrite E.
  apply Nat.ltb_lt in Ha. rewrite Ha.
  destruct (generation_loop remote rest (d * 2)) as [r events].
  destruct (exn_class e); try discriminate Hc; done.
Qed.

Lemma generation_loop_exhausted remote a rest d e :
  submit_and_poll remote a = Raise e ->
  is_transient (exn_class e) = true ->
  (max_retries - 1 <= a)%nat ->
  generation_loop remote (a :: rest) d =
    (Raise (Exception ("Failed after " +:+ pretty max_retries +:+ " attempts: " +:+ str e)),
     [Submit a]).
Proof.
  intros E Hc Ha. cbn [generation_loop]. rewrite E.
  apply Nat.ltb_ge in Ha. rewrite Ha.
  destruct (exn_class e); try discriminate Hc; done.
Qed.

(** What an attempt does: it succeeds, fails for good, or fails in a
    way that is tried again. *)
Lemma attempt_cases {A : Type} (r : Result A) :
  (exists a, r = Ok a) \/
  (exists e, r = Raise e /\ is_transient (exn_class e) = false) \/
  (exists e, r = Raise e /\ is_transient (exn_class e) = true).
Proof.
  destruct r as [a|e]; [eauto|].
  destruct (is_transient (exn_class e)) eqn:E; eauto.
Qed.

Lemma generation_loop_policy (remote : Remote) :
  exists k : nat,
    (1 <= k <= 3)%nat /\
    (generation_loop remote (range max_retries) 5).2 =
      firstn (2 * k - 1) generation_schedule /\
    (forall a : nat, (a < k - 1)%nat ->
       exists e, submit_and_poll remote a = Raise e /\
                 is_transient (exn_class e) = true) /\
    match submit_and_poll remote (k - 1) with
    | Ok _ => (generation_loop remote (range max_retries) 5).1 = Ok tt
    | Raise e =>
        is_failure (generation_loop remote (range max_retries) 5).1 /\
        (is_transient (exn_class e) = true -> k = 3%nat)
    end.
Proof.
  unfold range, generation_schedule, is_failure.
  change (seq 0 max_retries) with [0; 1; 2]%nat.
  destruct (attempt_cases (submit_and_poll remote 0))
    as [[[] E0]|[(e0 & E0 & T0)|(e0 & E0 & T0)]].
  { exists 1%nat. rewrite (generation_loop_ok _ _ _ _ E0). cbn [Nat.sub].
    rewrite E0. repeat split; lia. }
  { exists 1%nat. destruct (generation_loop_fatal _ _ [1; 2]%nat 5 _ E0 T0) as [e' ->].
    cbn [Nat.sub]. rewrite E0. repeat split; try lia; eauto. congruence. }
  rewrite (generation_loop_retry _ _ _ _ _ E0 T0) by (unfold max_retries; lia).
  destruct (attempt_cases (submit_and_poll remote 1))
    as [[[] E1]|[(e1 & E1 & T1)|(e1 & E1 & T1)]].
  { exists 2%nat. rewrite (generation_loop_ok _ _ _ _ E1). cbn [Nat.sub].
    rewrite E1. repeat split; try lia.
    intros a Ha. assert (a = 0%nat) as -> by lia. eauto. }
  { exists 2%nat. destruct (generation_loop_fatal _ _ [2]%nat (5 * 2) _ E1 T1) as [e' ->].
    cbn [Nat.sub]. rewrite E1. repeat split; try lia; eauto.
    - intros a Ha. assert (a = 0%nat) as -> by lia. eauto.
    - congruence. }
  rewrite (generation_loop_retry _ _ _ _ _ E1 T1) by (unfold max_retries; lia).
  assert (forall a : nat, (a < 3 - 1)%nat ->
            exists e, submit_and_poll remote a = Raise e /\
                      is_transient (exn_class e) = true) as Hfirst.
  { intros a Ha. assert (a = 0 \/ a = 1)%nat as [-> | ->] by lia; eauto. }
  exists 3%nat.
  destruct (attempt_cases (submit_and_poll remote 2))
    as [[[] E2]|[(e2 & E2 & T2)|(e2 & E2 & T2)]].
  { rewrite (generation_loop_ok _ _ _ _ E2). cbn [Nat.sub].
    rewrite E2. repeat split; try lia; done. }
  { destruct (generation_loop_fatal _ _ [] (5 * 2 * 2) _ E2 T2) as [e' ->].
    cbn [Nat.sub]. rewrite E2. repeat split; try lia; eauto. }
  rewrite (generation_loop_exhausted _ _ _ _ _ E2 T2) by (unfold max_retries; lia).
  cbn [Nat.sub]. rewrite E2. repeat split; try lia; eauto.
Qed.

(** One turn of the download loop, by what the download does. *)
Lemma download_loop_ok remote a rest video :
  download remote a = Ok video ->
  download_loop remote (a :: rest) = (Ok (Some video), [Download a]).
Proof. intros E. cbn [download_loop]. by rewrite E. Qed.

Lemma download_loop_fatal remote a rest e :
  download remote a = Raise e ->
  is_transient (exn_class e) = false ->
  download_loop remote (a :: rest) = (Raise e, [Download a]).
Proof. intros E Hc. cbn [download_loop]. by rewrite E, Hc. Qed.

Lemma download_loop_retry remote a rest e :
  download remote a = Raise e ->
  is_transient (exn_class e) = true ->
  (a < download_retries - 1)%nat ->
  download_loop remote (a :: rest) =
    ((download_loop remote rest).1,
     Download a :: DownloadDelay 5 :: (download_loop remote rest).2).
Proof.
  intros E Hc Ha. cbn [download_loop]. rewrite E, Hc.
  apply Nat.ltb_lt in Ha. rewrite Ha.
  by destruct (download_loop remote rest) as [r events].
Qed.

Lemma download_loop_exhausted remote a rest e :
  download remote a = Raise e ->
  is_transient (exn_class e) = true ->
  (download_retries - 1 <= a)%nat ->
  download_loop remote (a :: rest) =
    (Raise (Exception ("Failed to download video after " +:+ pretty download_retries +:+
                       " attempts: " +:+ str e)),
     [Download a]).
Proof.
  intros E Hc Ha. cbn [download_loop]. rewrite E, Hc.
  apply Nat.ltb_ge in Ha. by rewrite Ha.
Qed.

Lemma download_loop_policy (remote : Remote) :
  exists k : nat,
    (1 <= k <= 3)%nat /\
    (download_loop remote (range download_retries)).2 =
      firstn (2 * k - 1) download_schedule /\
    (forall a : nat, (a < k - 1)%nat ->
       exists e, download remote a = Raise e /\
                 is_transient (exn_class e) = true) /\
    match download remote (k - 1) with
    | Ok video => (download_loop remote (range download_retries)).1 = Ok (Some video)
    | Raise e =>
        is_failure (download_loop remote (range download_retries)).1 /\
        (is_transient (exn_class e) = true -> k = 3%nat)
    end.
Proof.
  unfold range, download_schedule, is_failure.
  change (seq 0 download_retries) with [0; 1; 2]%nat.
  destruct (attempt_cases (download remote 0))
    as [[v0 E0]|[(e0 & E0 & T0)|(e0 & E0 & T0)]].
  { exists 1%nat. rewrite (download_loop_ok _ _ _ _ E0). cbn [Nat.sub].
    rewrite E0. repeat split; lia. }
  { exists 1%nat. rewrite (download_loop_fatal _ _ _ _ E0 T0).
    cbn [Nat.sub]. rewrite E0. repeat split; try lia; eauto. congruence. }
  rewrite (download_loop_retry _ _ _ _ E0 T0) by (unfold download_retries; lia).
  destruct (attempt_cases (download remote 1))
    as [[v1 E1]|[(e1 & E1 & T1)|(e1 & E1 & T1)]].
  { exists 2%nat. rewrite (download_loop_ok _ _ _ _ E1). cbn [Nat.sub].
    rewrite E1. repeat split; try lia.
    intros a Ha. assert (a = 0%nat) as -> by lia. eauto. }
  { exists 2%nat. rewrite (download_loop_fatal _ _ _ _ E1 T1).
    cbn [Nat.sub]. rewrite E1. repeat split; try lia; eauto.
    - intros a Ha. assert (a = 0%nat) as -> by lia. eauto.
    - congruence. }
  rewrite (download_loop_retry _ _ _ _ E1 T1) by (unfold download_retries; lia).
  assert (forall a : nat, (a < 3 - 1)%nat ->
            exists e, download remote a = Raise e /\
                      is_transient (exn_class e) = true) as Hfirst.
  { intros a Ha. assert (a = 0 \/ a = 1)%nat as [-> | ->] by lia; eauto. }
  exists 3%nat.
  destruct (attempt_cases (download remote 2))
    as [[v2 E2]|[(e2 & E2 & T2)|(e2 & E2 & T2)]].
  { rewrite (download_loop_ok _ _ _ _ E2). cbn [Nat.sub].
    rewrite E2. repeat split; try lia; done. }
  { rewrite (download_loop_fatal _ _ _ _ E2 T2).
    cbn [Nat.sub]. rewrite E2. repeat split; try lia; eauto. }
  rewrite (download_loop_exhausted _ _ _ _ E2 T2) by (unfold download_retries; lia).
  cbn [Nat.sub]. rewrite E2. repeat split; try lia; eauto.
Qed.

(** The job, when nothing is cached for it: a failure of either leg is
    the job's failure. *)
Lemma generate_video_segment_uncached (get_cache_key : list Arg -> string)
    (remote : Remote) (disk : Disk) (lyrics : string) (index : nat)
    (genre : option string) (output_dir : string) (use_cache : bool) :
  (if use_cache
   then get_cached_file disk
          (video_cache_key get_cache_key (veo3_prompt_of genre lyrics) index) "mp4"
   else None) = None ->
  (forall e, (generation_loop remote (range max_retries) 5).1 = Raise e ->
     (generate_video_segment get_cache_key remote disk lyrics index genre
        output_dir use_cache).1 =
     (Raise (segment_failure index e), disk)) /\
  (forall e, (generation_loop remote (range max_retries) 5).1 = Ok tt ->
     (download_loop remote (range download_retries)).1 = Raise e ->
     (generate_video_segment get_cache_key remote disk lyrics index genre
        output_dir use_cache).1 =
     (Raise (segment_failure index e), disk)).
Proof.
  intros Hmiss. unfold generate_video_segment. rewrite Hmiss. cbn [truthy_opt].
  destruct (generation_loop remote (range max_retries) 5) as [[[]|eg] evg].
  - split; [intros e He; discriminate He|].
    intros e _. destruct (download_loop remote (range download_retries)) as [[sv|ed] evd].
    + intros He. discriminate He.
    + cbn [fst]. intros [= ->]. done.
  - split; [|intros e He; discriminate He].
    intros e. cbn [fst]. intros [= ->]. done.
Qed.

(** An operation that is still running at every poll runs into the
    budget. *)
Lemma poll_never_finished (replies : list PollReply) (elapsed : Z) :
  Forall (fun r => r = StillRunning) replies ->
  exists e, poll elapsed false replies = Raise e /\ exn_class e = TimeoutError.
Proof.
  intros H. revert elapsed. induction H as [|r rest -> _ IH]; intros elapsed.
  - cbn. destruct (max_poll_time <? elapsed); eauto.
  - cbn [poll]. destruct (max_poll_time <? elapsed); eauto.
Qed.

Lemma backoffs_of_schedule (k : nat) :
  (1 <= k <= 3)%nat ->
  backoffs (firstn (2 * k - 1) generation_schedule) = firstn (k - 1) [5; 10] /\
  download_delays (firstn (2 * k - 1) download_schedule) = firstn (k - 1) [5; 5].
Proof.
  intros Hk. assert (k = 1 \/ k = 2 \/ k = 3)%nat as [->|[->| ->]] by lia; done.
Qed.

(** C8, as the code has it.  In one job the submit and poll leg runs at
    most 3 times, a further time only after a failure of the transient class
    (the poll budget running out is one), after waits of 5 and then 10
    seconds: there is no third wait, the third failure ends the leg.  Any
    other failure ends it at once.  The download leg runs at most 3 times on
    the same class of failures, after a wait of 5 seconds each time.  When
    nothing is cached for the job, a leg that fails makes the job fail. *)
Theorem segment_job_retry_policy (remote : Remote) :
  (exists k : nat,
     (1 <= k <= 3)%nat /\
     (generation_loop remote (range max_retries) 5).2 =
       firstn (2 * k - 1) generation_schedule /\
     backoffs (generation_loop remote (range max_retries) 5).2 =
       firstn (k - 1) [5; 10] /\
     (forall a : nat, (a < k - 1)%nat ->
        exists e, submit_and_poll remote a = Raise e /\
                  is_transient (exn_class e) = true) /\
     match submit_and_poll remote (k - 1) with
     | Ok _ => (generation_loop remote (range max_retries) 5).1 = Ok tt
     | Raise e =>
         is_failure (generation_loop remote (range max_retries) 5).1 /\
         (is_transient (exn_class e) = true -> k = 3%nat)
     end) /\
  (exists k : nat,
     (1 <= k <= 3)%nat /\
     (download_loop remote (range download_retries)).2 =
       firstn (2 * k - 1) download_schedule /\
     download_delays (download_loop remote (range download_retries)).2 =
       firstn (k - 1) [5; 5] /\
     (forall a : nat, (a < k - 1)%nat ->
        exists e, download remote a = Raise e /\
                  is_transient (exn_class e) = true) /\
     match download remote (k - 1) with
     | Ok video => (download_loop remote (range download_retries)).1 = Ok (Some video)
     | Raise e =>
         is_failure (download_loop remote (range download_retries)).1 /\
         (is_transient (exn_class e) = true -> k = 3%nat)
     end) /\
  (forall (replies : list PollReply),
     Forall (fun r => r = StillRunning) replies ->
     exists e, poll 0 false replies = Raise e /\
               is_transient (exn_class e) = true) /\
  (forall (get_cache_key : list Arg -> string) (disk : Disk) (lyrics : string)
          (index : nat) (genre : option string) (output_dir : string)
          (use_cache : bool) (e : Exn),
     (if use_cache
      then get_cached_file disk
             (video_cache_key get_cache_key (veo3_prompt_of genre lyrics) index) "mp4"
      else None) = None ->
     ((generation_loop remote (range max_retries) 5).1 = Raise e \/
      ((generation_loop remote (range max_retries) 5).1 = Ok tt /\
       (download_loop remote (range download_retries)).1 = Raise e)) ->
     (generate_video_segment get_cache_key remote disk lyrics index genre
        output_dir use_cache).1 = (Raise (segment_failure index e), disk)).
Proof.
  split; [|split; [|split]].
  - destruct (generation_loop_policy remote) as (k & Hk & Hev & Hfirst & Hlast).
    exists k. rewrite Hev. by rewrite (proj1 (backoffs_of_schedule k Hk)).
  - destruct (download_loop_policy remote) as (k & Hk & Hev & Hfirst & Hlast).
    exists k. rewrite Hev. by rewrite (proj2 (backoffs_of_schedule k Hk)).
  - intros replies Hrun.
    destruct (poll_never_finished replies 0 Hrun) as (e & He & Hc).
    exists e. by rewrite Hc.
  - intros get_cache_key disk lyrics index genre output_dir use_cache e Hmiss.
    destruct (generate_video_segment_uncached get_cache_key remote disk lyrics
                index genre output_dir use_cache Hmiss) as [Hg Hd].
    intros [He|[Hok He]]; eauto.
Qed.

(** *** The batch collector *)

Lemma lookup_enumerate {A : Type} (l : list A) (i : nat) (x : A) :
  l !! i = Some x -> enumerate l !! i = Some (i, x).
Proof.
  intros H. unfold enumerate. apply lookup_zip_with_Some.
  exists i, x. split; [done|]. split; [|done].
  apply lookup_seq. split; [done|]. by eapply lookup_lt_Some.
Qed.

Lemma omap_all_Some {A B : Type} (f : A -> option B) (g : A -> B) (l : list A) :
  (forall x, x ∈ l -> f x = Some (g x)) -> omap f l = map g l.
Proof.
  induction l as [|x l IH]; intros H; [done|].
  cbn. rewrite (H x) by left. cbn. f_equal.
  apply IH. intros y Hy. apply H. by right.
Qed.

(** With no error among them, the results are all stored, each under
    its own index. *)
Lemma collect_all (g : nat -> option string) (order : list nat) :
  forall m : gmap nat (option string),
  exists m' : gmap nat (option string),
    collect (map (fun i => (i, g i, None)) order) m = Ok m' /\
    (forall i, i ∈ order -> m' !! i = Some (g i)) /\
    (forall i, i ∉ order -> m' !! i = m !! i).
Proof.
  induction order as [|j order IH]; intros m.
  - exists m. split; [done|]. split; [|done]. intros i Hi. by apply elem_of_nil in Hi.
  - cbn [map collect truthy_opt].
    destruct (IH (<[j := g j]> m)) as (m' & Hc & Hin & Hout).
    exists m'. split; [done|]. split.
    + intros i Hi. destruct (decide (i ∈ order)) as [Ho|Ho]; [by apply Hin|].
      apply elem_of_cons in Hi as [->|Hi]; [|done].
      rewrite (Hout j Ho). apply lookup_insert_eq.
    + intros i Hi. apply not_elem_of_cons in Hi as [Hne Hi].
      rewrite (Hout i Hi). by apply lookup_insert_ne.
Qed.

Lemma in_order_all (g : nat -> option string) (m : gmap nat (option string))
    (indices : list nat) :
  (forall i, i ∈ indices -> m !! i = Some (g i)) ->
  in_order m indices = Ok (map g indices).
Proof.
  induction indices as [|i indices IH]; intros H; [done|].
  cbn [in_order map]. rewrite (H i) by left.
  rewrite IH; [done|]. intros j Hj. apply H. by right.
Qed.

(** The first error among the results stops the collection. *)
Lemma collect_first_error (g : nat -> option string) (before : list nat)
    (rest : list JobResult) (j : nat) (path : option string) (msg : string) :
  truthy msg = true ->
  forall m : gmap nat (option string),
  collect (map (fun i => (i, g i, None)) before ++ (j, path, Some msg) :: rest) m =
  Raise (Exception ("Failed to generate segment " +:+ pretty j +:+ ": " +:+ msg)).
Proof.
  intros Hmsg. induction before as [|i before IH]; intros m.
  - cbn [map app collect truthy_opt]. by rewrite Hmsg.
  - cbn [map app collect truthy_opt]. apply IH.
Qed.

(** An error, once collected, is never turned into a result. *)
Lemma collect_Ok_no_error (completed : list JobResult) :
  forall m m' : gmap nat (option string),
  collect completed m = Ok m' ->
  Forall (fun r => truthy_opt r.2 = false) completed.
Proof.
  induction completed as [|[[i path] err] completed IH]; intros m m' H; [done|].
  cbn [collect] in H. destruct (truthy_opt err) eqn:E; [discriminate H|].
  constructor; [done|]. by eapply IH.
Qed.

Lemma in_order_length (m : gmap nat (option string)) (indices : list nat)
    (paths : list (option string)) :
  in_order m indices = Ok paths -> length paths = length indices.
Proof.
  revert paths. induction indices as [|i indices IH]; intros paths H.
  - by injection H as <-.
  - cbn [in_order] in H. destruct (m !! i); [|discriminate H].
    destruct (in_order m indices) as [ps|e]; [|discriminate H].
    injection H as <-. cbn. f_equal. by apply IH.
Qed.

Section Batch.
Context (get_cache_key : list Arg -> string) (client : nat -> Remote)
        (disk : Disk) (genre : option string) (output_dir : string)
        (use_cache : bool).

(** What the job of segment [index] comes to. *)
Definition job (index : nat) (segment : Transcriber.Segment) : Result string :=
  (generate_video_segment get_cache_key (client index) disk
     (Transcriber.seg_text segment) index genre output_dir use_cache).1.1.

Definition worker : nat * Transcriber.Segment -> JobResult :=
  generate_segment_worker get_cache_key client disk genre output_dir use_cache.

Lemma worker_job (index : nat) (segment : Transcriber.Segment) :
  worker (index, segment) =
  match job index segment with
  | Ok video_path => (index, Some video_path, None)
  | Raise e => (index, None, Some (str e))
  end.
Proof. by destruct segment as [[start_time end_time] lyrics]. Qed.

Lemma segment_failure_truthy (index : nat) (e : Exn) :
  truthy (str (segment_failure index e)) = true.
Proof. done. Qed.

Lemma job_Ok_path (index : nat) (segment : Transcriber.Segment) (path : string) :
  job index segment = Ok path -> path = output_path_of output_dir index.
Proof.
  unfold job, generate_video_segment. intros H.
  repeat case_match; cbn [fst] in H; by simplify_eq.
Qed.

Lemma job_Raise_truthy (index : nat) (segment : Transcriber.Segment) (e : Exn) :
  job index segment = Raise e -> truthy (str e) = true.
Proof.
  unfold job, generate_video_segment. intros H.
  repeat case_match; cbn [fst] in H; simplify_eq;
    try apply segment_failure_truthy.
  unfold copy in *. case_match; by simplify_eq.
Qed.

Lemma futures_lookup (video_segments : list Transcriber.Segment) (i : nat)
    (segment : Transcriber.Segment) :
  video_segments !! i = Some segment ->
  map worker (enumerate video_segments) !! i = Some (worker (i, segment)).
Proof.
  intros H. rewrite list_lookup_fmap, (lookup_enumerate _ _ _ H). done.
Qed.

(** The results in completion order, when the jobs listed all succeed. *)
Lemma completed_successes (video_segments : list Transcriber.Segment)
    (order : list nat) :
  (forall i, i ∈ order -> (i < length video_segments)%nat) ->
  (forall i segment, i ∈ order -> video_segments !! i = Some segment ->
     exists path, job i segment = Ok path) ->
  omap (fun position => map worker (enumerate video_segments) !! position) order =
  map (fun i => (i, Some (output_path_of output_dir i), None)) order.
Proof.
  intros Hlt Hok. apply omap_all_Some. intros i Hi.
  destruct (lookup_lt_is_Some_2 video_segments i (Hlt i Hi)) as [segment Hs].
  rewrite (futures_lookup _ _ _ Hs), worker_job.
  destruct (Hok i segment Hi Hs) as [path Hp]. rewrite Hp.
  by rewrite (job_Ok_path _ _ _ Hp).
Qed.

Lemma all_jobs_succeed (video_segments : list Transcriber.Segment)
    (completion_order : list nat) (max_workers : Z) :
  0 < max_workers ->
  Permutation completion_order (seq 0 (length video_segments)) ->
  (forall i segment, video_segments !! i = Some segment ->
     exists path, job i segment = Ok path) ->
  generate_all_videos get_cache_key client disk completion_order video_segments
    genre output_dir use_cache max_workers =
  Ok (map (fun i => Some (output_path_of output_dir i))
          (seq 0 (length video_segments))).
Proof.
  intros Hw Hperm Hok. unfold generate_all_videos.
  assert ((max_workers <=? 0) = false) as -> by lia.
  fold worker.
  assert (forall i, i ∈ completion_order <-> (i < length video_segments)%nat) as Hin.
  { intros i. rewrite Hperm, elem_of_seq. lia. }
  rewrite completed_successes; [|intros i Hi; by apply Hin|by eauto].
  destruct (collect_all (fun i => Some (output_path_of output_dir i))
              completion_order ∅) as (m' & -> & Hm' & _).
  apply in_order_all. intros i Hi. apply Hm', Hin.
  unfold range in Hi. apply elem_of_seq in Hi. lia.
Qed.

(** C4. Whatever the order in which the jobs complete (any
    permutation of the futures), when every job succeeds the call returns
    the paths in the order of the segments: position [i] holds the path
    that the job of segment [i] produced. *)
Theorem generate_all_videos_in_index_order
    (video_segments : list Transcriber.Segment)
    (completion_order : list nat) (max_workers : Z) :
  0 < max_workers ->
  Permutation completion_order (seq 0 (length video_segments)) ->
  (forall i segment, video_segments !! i = Some segment ->
     exists path, job i segment = Ok path) ->
  exists paths : list (option string),
    generate_all_videos get_cache_key client disk completion_order video_segments
      genre output_dir use_cache max_workers = Ok paths /\
    length paths = length video_segments /\
    (forall i segment, video_segments !! i = Some segment ->
       exists path, job i segment = Ok path /\ paths !! i = Some (Some path)) /\
    generate_all_videos get_cache_key client disk
      (rev (seq 0 (length video_segments))) video_segments
      genre output_dir use_cache max_workers = Ok paths.
Proof.
  intros Hw Hperm Hok.
  exists (map (fun i => Some (output_path_of output_dir i))
              (seq 0 (length video_segments))).
  split; [by apply all_jobs_succeed|].
  split; [by rewrite length_map, length_seq|].
  split.
  - intros i segment Hs. destruct (Hok i segment Hs) as [path Hp].
    exists path. split; [done|].
    rewrite list_lookup_fmap, lookup_seq_lt by (by eapply lookup_lt_Some).
    cbn. by rewrite (job_Ok_path _ _ _ Hp).
  - apply all_jobs_succeed; [done| |done]. symmetry. apply Permutation_rev.
Qed.

(** C5. The call either returns one path for every segment, all jobs
    having succeeded, or raises.  When a job fails, whatever the order of
    completion, the call raises; the exception carries the index and the
    error of the first failed job in that order. *)
Theorem generate_all_videos_all_or_nothing
    (video_segments : list Transcriber.Segment)
    (completion_order : list nat) (max_workers : Z) :
  0 < max_workers ->
  Permutation completion_order (seq 0 (length video_segments)) ->
  (forall (before after : list nat) (j : nat) (segment : Transcriber.Segment)
          (e : Exn),
     completion_order = before ++ j :: after ->
     (forall i s, i ∈ before -> video_segments !! i = Some s ->
        exists path, job i s = Ok path) ->
     video_segments !! j = Some segment ->
     job j segment = Raise e ->
     generate_all_videos get_cache_key client disk completion_order video_segments
       genre output_dir use_cache max_workers =
     Raise (Exception ("Failed to generate segment " +:+ pretty j +:+ ": " +:+ str e))) /\
  (forall paths : list (option string),
     generate_all_videos get_cache_key client disk completion_order video_segments
       genre output_dir use_cache max_workers = Ok paths ->
     length paths = length video_segments /\
     (forall i segment, video_segments !! i = Some segment ->
        job i segment = Ok (output_path_of output_dir i) /\
        paths !! i = Some (Some (output_path_of output_dir i)))) /\
  ((exists i segment e, video_segments !! i = Some segment /\
                        job i segment = Raise e) ->
   is_failure (generate_all_videos get_cache_key client disk completion_order
                 video_segments genre output_dir use_cache max_workers)).
Proof.
  intros Hw Hperm.
  assert (forall i, i ∈ completion_order <-> (i < length video_segments)%nat) as Hin.
  { intros i. rewrite Hperm, elem_of_seq. lia. }
  assert (forall paths : list (option string),
     generate_all_videos get_cache_key client disk completion_order video_segments
       genre output_dir use_cache max_workers = Ok paths ->
     forall i segment, video_segments !! i = Some segment ->
       exists path, job i segment = Ok path) as Hall.
  { intros paths H i segment Hs. unfold generate_all_videos in H.
    assert ((max_workers <=? 0) = false) as E by lia. rewrite E in H. fold worker in H.
    destruct (collect _ ∅) as [m'|e] eqn:Hc; [|discriminate H].
    apply collect_Ok_no_error in Hc. rewrite Forall_forall in Hc.
    assert (worker (i, segment) ∈
            omap (fun position => map worker (enumerate video_segments) !! position)
                 completion_order) as Hw'.
    { apply list_elem_of_omap. exists i. split.
      - apply Hin. by eapply lookup_lt_Some.
      - by apply futures_lookup. }
    specialize (Hc _ Hw'). rewrite worker_job in Hc.
    destruct (job i segment) as [path|e] eqn:Hj; [eauto|].
    cbn in Hc. by rewrite (job_Raise_truthy _ _ _ Hj) in Hc. }
  split; [|split].
  - intros before after j segment e -> Hbefore Hs Hj.
    unfold generate_all_videos.
    assert ((max_workers <=? 0) = false) as -> by lia. fold worker.
    rewrite omap_app. cbn [omap list_omap].
    rewrite completed_successes.
    + rewrite (futures_lookup _ _ _ Hs), worker_job, Hj. cbn [mbind option_bind].
      rewrite (collect_first_error _ _ _ _ _ _ (job_Raise_truthy _ _ _ Hj)).
      done.
    + intros i Hi. apply Hin. apply elem_of_app. by left.
    + done.
  - intros paths H. pose proof (Hall paths H) as Hok.
    rewrite (all_jobs_succeed _ _ _ Hw Hperm Hok) in H. injection H as <-.
    split; [by rewrite length_map, length_seq|].
    intros i segment Hs. destruct (Hok i segment Hs) as [path Hp].
    rewrite <- (job_Ok_path _ _ _ Hp). split; [done|].
    rewrite list_lookup_fmap, lookup_seq_lt by (by eapply lookup_lt_Some).
    cbn. by rewrite (job_Ok_path _ _ _ Hp).
  - intros (i & segment & e & Hs & Hj).
    destruct (generate_all_videos _ _ _ _ _ _ _ _ _) as [paths|e'] eqn:H;
      [|by exists e'].
    destruct (Hall paths eq_refl i segment Hs) as [path Hp]. congruence.
Qed.

End Batch.

(** *** A batch of three segments *)

Definition sample_key : list Arg -> string := fun _ => "9e107d9d372bb6826bd81d3542a419d6".

Definition always_ready : Remote :=
  {| generate_videos := fun _ => Ok {| done_at_once := true; replies := [] |};
     download := fun _ => Ok "frames" |}.

Definition three_segments : list Transcriber.Segment :=
  [(0, 8, "la la"); (8, 16, "hey"); (16, 20, "la la hey")]%Q.

(** Every job succeeds. *)
Definition all_ready : nat -> Remote := fun _ => always_ready.

(** The job of segment 1 never gets its video. *)
Definition second_stalls : nat -> Remote :=
  fun index => if (index =? 1)%nat then never_finishes else always_ready.

Lemma three_segments_lookup (i : nat) (s : Transcriber.Segment) :
  three_segments !! i = Some s ->
  (i = 0%nat /\ s = (0, 8, "la la")%Q) \/
  (i = 1%nat /\ s = (8, 16, "hey")%Q) \/
  (i = 2%nat /\ s = (16, 20, "la la hey")%Q).
Proof.
  destruct i as [|[|[|i]]]; cbn; intros H; try discriminate H;
    injection H as <-; auto.
Defined.

Lemma generate_all_videos_in_index_order_witness :
  exists paths : list (option string),
    generate_all_videos sample_key all_ready ∅ [2; 0; 1]%nat three_segments
      (Some "pop") "videos" true 4 = Ok paths /\
    generate_all_videos sample_key all_ready ∅ [2; 1; 0]%nat three_segments
      (Some "pop") "videos" true 4 = Ok paths /\
    length paths = 3%nat.
Proof.
  destruct (generate_all_videos_in_index_order sample_key all_ready ∅ (Some "pop")
              "videos" true three_segments [2; 0; 1]%nat 4)
    as (paths & H & Hlen & _ & Hrev).
  - lia.
  - eapply perm_trans; [apply perm_swap|]. apply perm_skip, perm_swap.
  - intros i s Hs.
    destruct (three_segments_lookup i s Hs) as [[-> ->]|[[-> ->]|[-> ->]]];
      eexists; vm_compute; reflexivity.
  - exists paths. split; [exact H|]. split; [exact Hrev|exact Hlen].
Defined.

Lemma generate_all_videos_all_or_nothing_witness :
  generate_all_videos sample_key second_stalls ∅ [2; 1; 0]%nat three_segments
    (Some "pop") "videos" true 4 =
  Raise (Exception
    ("Failed to generate segment 1: Failed to generate video segment 1: " +:+
     "Failed after 3 attempts: Video generation exceeded 600s timeout")).
Proof.
  destruct (generate_all_videos_all_or_nothing sample_key second_stalls ∅ (Some "pop")
              "videos" true three_segments [2; 1; 0]%nat 4) as (H & _ & _).
  - lia.
  - eapply perm_trans; [apply perm_swap|].
    eapply perm_trans; [apply perm_skip, perm_swap|]. apply perm_swap.
  - apply (H [2]%nat [0]%nat 1%nat (8, 16, "hey")%Q
             (segment_failure 1
                (Exception
                   "Failed after 3 attempts: Video generation exceeded 600s timeout"))).
    + reflexivity.
    + intros i s Hi Hs. apply list_elem_of_singleton in Hi. subst i.
      cbn in Hs. injection Hs as <-. eexists. vm_compute. reflexivity.
    + reflexivity.
    + vm_compute. reflexivity.
Defined.

End VideoGeneratorFacts.

Module LlmHandlerFacts.
Import Py PyFacts CacheManager LlmHandler.

Lemma get_cached_result_text (disk : Disk) (cache_key : string) :
  get_cached_result disk cache_key "text" =
  universal_newlines <$> disk !! cache_path cache_key "text".
Proof. unfold get_cached_result. by destruct (disk !! _). Qed.

Lemma save_to_cache_text (disk : Disk) (cache_key result : string) :
  save_to_cache disk cache_key result "text" =
  Ok (<[cache_path cache_key "text" := result]> disk).
Proof. done. Qed.

Lemma universal_newlines_cons2 (c c' : ascii) (s : string) :
  universal_newlines (String c (String c' s)) =
  if is_cr c
  then String LF (if is_lf c' then universal_newlines s
                  else universal_newlines (String c' s))
  else String c (universal_newlines (String c' s)).
Proof. done. Qed.

(** Reading a text back never makes it longer. *)
Lemma length_universal_newlines (s : string) :
  (String.length (universal_newlines s) <= String.length s)%nat.
Proof.
  enough ((String.length (universal_newlines s) <= String.length s)%nat /\
          forall c, (String.length (universal_newlines (String c s))
                     <= S (String.length s))%nat) as [H _] by done.
  induction s as [|c' s [IH1 IH2]].
  - split; [done|]. intros c. cbn. destruct (is_cr c); cbn; lia.
  - split; [apply IH2|].
    intros c. rewrite universal_newlines_cons2.
    specialize (IH2 c'). cbn [String.length].
    destruct (is_cr c); [destruct (is_lf c')|]; cbn [String.length]; lia.
Qed.

(** A text without carriage returns is read back as it was written. *)
Fixpoint no_cr (s : string) : bool :=
  match s with
  | EmptyString => true
  | String c rest => negb (is_cr c) && no_cr rest
  end.

Lemma universal_newlines_no_cr (s : string) :
  no_cr s = true -> universal_newlines s = s.
Proof.
  induction s as [|c s IH]; [done|].
  cbn [no_cr universal_newlines]. intros H.
  apply andb_true_iff in H as [Hc Hs]. apply negb_true_iff in Hc.
  rewrite Hc. by rewrite IH.
Qed.

(** Every text entry of the cache holds at most 599 characters. *)
Definition text_cache_bounded (disk : Disk) : Prop :=
  forall (cache_key content : string),
    disk !! cache_path cache_key "text" = Some content ->
    (String.length content <= 599)%nat.

Lemma text_cache_bounded_empty : text_cache_bounded ∅.
Proof. intros k c H. by rewrite lookup_empty in H. Qed.

Lemma text_cache_bounded_clear (disk : Disk) :
  text_cache_bounded disk -> text_cache_bounded (clear_cache disk).
Proof.
  intros H k c Hk. unfold clear_cache in Hk.
  apply map_lookup_filter_Some in Hk as [Hk _]. by eapply H.
Qed.

(** The cache key of a lyrics request. *)
Definition lyrics_key (get_cache_key : list Arg -> string) (prompt model : string)
    : string :=
  get_cache_key [AStr "lyrics"; AStr prompt; AStr model].

Lemma cached_lyrics_lookup (get_cache_key : list Arg -> string) (w : World)
    (prompt model : string) :
  cached_lyrics get_cache_key w prompt model true =
  match disk w !! cache_path (lyrics_key get_cache_key prompt model) "text" with
  | Some content =>
      if truthy (universal_newlines content)
      then Some (universal_newlines content) else None
  | None => None
  end.
Proof.
  unfold cached_lyrics. cbv zeta. rewrite get_cached_result_text.
  fold (lyrics_key get_cache_key prompt model).
  by destruct (disk w !! _).
Qed.

Lemma generate_lyrics_hit (get_cache_key : list Arg -> string)
    (completion : Completion) (w : World) (prompt model cached : string)
    (use_cache : bool) :
  cached_lyrics get_cache_key w prompt model use_cache = Some cached ->
  generate_lyrics get_cache_key completion w prompt model use_cache = (Ok cached, w).
Proof. intros H. unfold generate_lyrics. by rewrite H. Qed.

Lemma generate_lyrics_miss (get_cache_key : list Arg -> string)
    (completion : Completion) (w : World) (prompt model content : string)
    (use_cache : bool) :
  cached_lyrics get_cache_key w prompt model use_cache = None ->
  completion (remote_calls w) model ("Write song lyrics about: " +:+ prompt) =
    Ok (Some content) ->
  generate_lyrics get_cache_key completion w prompt model use_cache =
  (Ok (slice_to 599 (strip content)),
   {| disk := if use_cache
              then <[cache_path (lyrics_key get_cache_key prompt model) "text" :=
                       slice_to 599 (strip content)]> (disk w)
              else disk w;
      remote_calls := S (remote_calls w) |}).
Proof.
  intros Hc Hr. unfold generate_lyrics. rewrite Hc, Hr. cbv zeta.
  destruct use_cache; [|done]. by rewrite save_to_cache_text.
Qed.

(** C10. Starting from a cache whose text entries hold at most 599
    characters (an empty or cleared cache is one), a call returns at most
    599 characters and leaves such a cache behind.  On a miss the reply of
    the model, stripped, is cut to its first 599 characters; that text is
    what is returned and what is stored. *)
Theorem generate_lyrics_at_most_599 (get_cache_key : list Arg -> string)
    (completion : Completion) (w : World) (prompt model : string)
    (use_cache : bool) :
  text_cache_bounded (disk w) ->
  let out := generate_lyrics get_cache_key completion w prompt model use_cache in
  (forall lyrics : string, out.1 = Ok lyrics -> (String.length lyrics <= 599)%nat) /\
  text_cache_bounded (disk out.2) /\
  (cached_lyrics get_cache_key w prompt model use_cache = None ->
   forall content : string,
     completion (remote_calls w) model ("Write song lyrics about: " +:+ prompt) =
       Ok (Some content) ->
     out.1 = Ok (slice_to 599 (strip content)) /\
     (use_cache = true ->
      disk out.2 !! cache_path (lyrics_key get_cache_key prompt model) "text" =
        Some (slice_to 599 (strip content))) /\
     (use_cache = false -> disk out.2 = disk w)).
Proof.
  intros Hb out. subst out.
  destruct (cached_lyrics get_cache_key w prompt model use_cache) as [cached|] eqn:Hc.
  - rewrite (generate_lyrics_hit _ completion _ _ _ _ _ Hc). cbn [fst snd].
    split; [|split; [done|discriminate]].
    intros lyrics [= <-]. unfold cached_lyrics in Hc.
    destruct use_cache; [|discriminate Hc]. cbv zeta in Hc.
    rewrite get_cached_result_text in Hc.
    destruct (disk w !! _) as [content|] eqn:E; [|discriminate Hc].
    cbn in Hc. destruct (truthy _); [|discriminate Hc]. injection Hc as <-.
    pose proof (length_universal_newlines content). pose proof (Hb _ _ E). lia.
  - destruct (completion (remote_calls w) model ("Write song lyrics about: " +:+ prompt))
      as [[content|]|e] eqn:Hr.
    + rewrite (generate_lyrics_miss _ _ _ _ _ _ _ Hc Hr). cbn [fst snd disk].
      pose proof (length_slice_to 599 (strip content)) as Hlen.
      split; [by intros lyrics [= <-]|]. split.
      * destruct use_cache; [|done]. intros k c Hk.
        destruct (decide (cache_path (lyrics_key get_cache_key prompt model) "text"
                          = cache_path k "text")) as [Heq|Hne].
        -- rewrite Heq, lookup_insert_eq in Hk. by injection Hk as <-.
        -- rewrite lookup_insert_ne in Hk by done. by eapply Hb.
      * intros _ content' [= <-]. split; [done|].
        split; intros ->; [by rewrite lookup_insert_eq|done].
    + unfold generate_lyrics. rewrite Hc, Hr. cbn [fst snd disk].
      split; [intros lyrics H; discriminate H|]. split; [done|].
      intros _ content H. discriminate H.
    + unfold generate_lyrics. rewrite Hc, Hr. cbn [fst snd disk].
      split; [intros lyrics H; discriminate H|]. split; [done|].
      intros _ content H. discriminate H.
Qed.

(** What does hold of the cache: a result that is not empty and has no
    carriage return is stored by the first call and given back by the
    second, which does not call the model. *)
Lemma generate_lyrics_reuses_cache (get_cache_key : list Arg -> string)
    (completion : Completion) (w w1 : World) (prompt model lyrics : string) :
  generate_lyrics get_cache_key completion w prompt model true = (Ok lyrics, w1) ->
  truthy lyrics = true ->
  no_cr lyrics = true ->
  generate_lyrics get_cache_key completion w1 prompt model true = (Ok lyrics, w1) /\
  (remote_calls w1 <= S (remote_calls w))%nat.
Proof.
  intros H Ht Hn.
  destruct (cached_lyrics get_cache_key w prompt model true) as [cached|] eqn:Hc.
  - rewrite (generate_lyrics_hit _ completion _ _ _ _ _ Hc) in H.
    injection H as <- <-. split; [by apply generate_lyrics_hit|lia].
  - destruct (completion (remote_calls w) model ("Write song lyrics about: " +:+ prompt))
      as [[content|]|e] eqn:Hr.
    + rewrite (generate_lyrics_miss _ _ _ _ _ _ _ Hc Hr) in H.
      injection H as <- <-. cbn [remote_calls]. split; [|lia].
      apply generate_lyrics_hit. rewrite cached_lyrics_lookup. cbn [disk].
      rewrite lookup_insert_eq, (universal_newlines_no_cr _ Hn). by rewrite Ht.
    + unfold generate_lyrics in H. rewrite Hc, Hr in H. discriminate H.
    + unfold generate_lyrics in H. rewrite Hc, Hr in H. discriminate H.
Qed.

(** A model that answers with blanks first and with a song afterwards. *)
Definition blank_then_song : Completion :=
  fun n _ _ =>
    match n with
    | O => Ok (Some "   ")
    | S _ => Ok (Some "La la la")
    end.

(** A model whose answer has a carriage return in it. *)
Definition CR : ascii := ascii_of_nat 13.
Definition song_with_cr : Completion :=
  fun _ _ _ => Ok (Some ("La" +:+ String CR (String LF "la"))).

Definition fresh : World := {| disk := ∅; remote_calls := 0 |}.

(** C9 at an empty result.  The first call gets blanks from the model,
    returns the empty text and stores it.  The second call, with the same
    prompt and model, finds the entry, takes the empty text for no entry at
    all and calls the model again: two remote calls, and another result.
    Likewise a result with a carriage return is stored once but read back
    changed. *)
Theorem generate_lyrics_empty_result_not_reused (get_cache_key : list Arg -> string) :
  let first :=
    generate_lyrics get_cache_key blank_then_song fresh "rain" "openai/gpt-4o" true in
  let second :=
    generate_lyrics get_cache_key blank_then_song first.2 "rain" "openai/gpt-4o" true in
  let first' :=
    generate_lyrics get_cache_key song_with_cr fresh "rain" "openai/gpt-4o" true in
  let second' :=
    generate_lyrics get_cache_key song_with_cr first'.2 "rain" "openai/gpt-4o" true in
  first.1 = Ok EmptyString /\
  disk first.2 !! cache_path (lyrics_key get_cache_key "rain" "openai/gpt-4o") "text" =
    Some EmptyString /\
  second.1 = Ok "La la la" /\
  remote_calls second.2 = 2%nat /\
  first'.1 = Ok ("La" +:+ String CR (String LF "la")) /\
  second'.1 = Ok ("La" +:+ String LF "la") /\
  remote_calls second'.2 = 1%nat.
Proof.
  intros first second first' second'.
  assert (first = (Ok EmptyString,
                   {| disk := <[cache_path (lyrics_key get_cache_key "rain" "openai/gpt-4o")
                                  "text" := EmptyString]> ∅;
                      remote_calls := 1 |})) as E1.
  { subst first.
    rewrite (generate_lyrics_miss get_cache_key blank_then_song fresh
               "rain" "openai/gpt-4o" "   " true); [reflexivity| |reflexivity].
    rewrite cached_lyrics_lookup. cbn [disk fresh]. by rewrite lookup_empty. }
  assert (second = (Ok "La la la",
                    {| disk := <[cache_path (lyrics_key get_cache_key "rain" "openai/gpt-4o")
                                   "text" := "La la la"]>
                               (<[cache_path (lyrics_key get_cache_key "rain" "openai/gpt-4o")
                                   "text" := EmptyString]> ∅);
                       remote_calls := 2 |})) as E2.
  { subst second. rewrite E1. cbn [snd].
    rewrite (generate_lyrics_miss get_cache_key blank_then_song _
               "rain" "openai/gpt-4o" "La la la" true); [reflexivity| |reflexivity].
    rewrite cached_lyrics_lookup. cbn [disk]. by rewrite lookup_insert_eq. }
  assert (first' = (Ok ("La" +:+ String CR (String LF "la")),
                   {| disk := <[cache_path (lyrics_key get_cache_key "rain" "openai/gpt-4o")
                                  "text" := "La" +:+ String CR (String LF "la")]> ∅;
                      remote_calls := 1 |})) as E3.
  { subst first'.
    rewrite (generate_lyrics_miss get_cache_key song_with_cr fresh
               "rain" "openai/gpt-4o" ("La" +:+ String CR (String LF "la")) true);
      [reflexivity| |reflexivity].
    rewrite cached_lyrics_lookup. cbn [disk fresh]. by rewrite lookup_empty. }
  assert (second' = (Ok ("La" +:+ String LF "la"), first'.2)) as E4.
  { subst second'. rewrite E3. cbn [snd]. apply generate_lyrics_hit.
    rewrite cached_lyrics_lookup. cbn [disk]. by rewrite lookup_insert_eq. }
  rewrite E4, E3, E2, E1. cbn [fst snd disk remote_calls].
  rewrite lookup_insert_eq. done.
Qed.

(** A model that answers with 700 characters. *)
Definition long_reply : Completion :=
  fun _ _ _ => Ok (Some (String.concat EmptyString (replicate 700 "a"))).

Lemma generate_lyrics_at_most_599_witness :
  text_cache_bounded (disk fresh) /\
  exists lyrics : string,
    (generate_lyrics (fun _ => "9e107d9d372bb6826bd81d3542a419d6") long_reply fresh
       "rain" "openai/gpt-4o" true).1 = Ok lyrics /\
    (String.length lyrics <= 599)%nat.
Proof.
  split; [apply text_cache_bounded_empty|].
  destruct (generate_lyrics_at_most_599 (fun _ => "9e107d9d372bb6826bd81d3542a419d6")
              long_reply fresh "rain" "openai/gpt-4o" true text_cache_bounded_empty)
    as (H & _ & _).
  eexists. split; [vm_compute; reflexivity|].
  apply H. vm_compute. reflexivity.
Defined.

End LlmHandlerFacts.

(** * Further properties of the cache store *)

Module CacheManagerFacts.
Import Py PyFacts CacheManager LlmHandlerFacts.

Lemma append_cons (c : ascii) (a b : string) :
  String c a +:+ b = String c (a +:+ b).
Proof. reflexivity. Qed.

Lemma append_nil (b : string) : EmptyString +:+ b = b.
Proof. reflexivity. Qed.

Lemma append_assoc (a b c : string) : (a +:+ b) +:+ c = a +:+ (b +:+ c).
Proof.
  induction a as [|x a IH]; [done|]. by rewrite !append_cons, IH.
Qed.

Lemma length_append (a b : string) :
  String.length (a +:+ b) = (String.length a + String.length b)%nat.
Proof.
  induction a as [|c a IH]; [done|].
  rewrite append_cons. cbn [String.length]. by rewrite IH.
Qed.

Lemma prefix_append (a b : string) : String.prefix a (a +:+ b) = true.
Proof.
  induction a as [|c a IH]; [by destruct b|].
  rewrite append_cons. cbn [String.prefix].
  by destruct (ascii_dec c c).
Qed.

Lemma cache_path_in_cache_dir (cache_key ext : string) :
  String.prefix (CACHE_DIR +:+ "/") (cache_path cache_key ext) = true.
Proof. unfold cache_path. rewrite <- append_assoc. apply prefix_append. Qed.

(** Two equal texts that end in strings of the same length end in the
    same string. *)
Lemma append_inj_suffix (a b s1 s2 : string) :
  String.length s1 = String.length s2 -> a +:+ s1 = b +:+ s2 -> s1 = s2.
Proof.
  intros Hlen. revert b. induction a as [|c a IH]; intros [|c' b] H.
  - done.
  - apply (f_equal String.length) in H.
    rewrite append_nil, append_cons in H. cbn [String.length] in H.
    rewrite length_append in H. lia.
  - apply (f_equal String.length) in H.
    rewrite append_nil, append_cons in H. cbn [String.length] in H.
    rewrite length_append in H. lia.
  - rewrite !append_cons in H. injection H as _ H. by eapply IH.
Qed.

(** A cache path ends in a dot and the extension. *)
Lemma cache_path_suffix (cache_key ext : string) :
  cache_path cache_key ext = (CACHE_DIR +:+ "/" +:+ cache_key) +:+ ("." +:+ ext).
Proof. unfold cache_path. by rewrite !append_assoc. Qed.

(** The kinds of entries the stages store. *)
Definition kinds : list string := ["json"; "text"; "file"; "mp3"; "mp4"].

(** The last three characters of an extension. *)
Definition tail3 (ext : string) : string :=
  substring (String.length ext - 3) 3 ext.

Lemma kind_split (ext : string) :
  ext ∈ kinds ->
  exists h : string,
    "." +:+ ext = h +:+ tail3 ext /\ String.length (tail3 ext) = 3%nat.
Proof.
  unfold kinds. intros H.
  repeat (apply elem_of_cons in H as [->|H]); [..|by apply elem_of_nil in H].
  - by exists ".j".
  - by exists ".t".
  - by exists ".f".
  - by exists ".".
  - by exists ".".
Qed.

Lemma tail3_inj (ext1 ext2 : string) :
  ext1 ∈ kinds -> ext2 ∈ kinds -> tail3 ext1 = tail3 ext2 -> ext1 = ext2.
Proof.
  unfold kinds. intros H1 H2.
  repeat (apply elem_of_cons in H1 as [->|H1]); [..|by apply elem_of_nil in H1];
    repeat (apply elem_of_cons in H2 as [->|H2]);
    try (by apply elem_of_nil in H2); vm_compute; congruence.
Qed.

(** Entries of different kinds never share a file, whatever their keys. *)
Lemma kinds_apart (k1 k2 ext1 ext2 : string) :
  ext1 ∈ kinds -> ext2 ∈ kinds -> ext1 <> ext2 ->
  cache_path k1 ext1 <> cache_path k2 ext2.
Proof.
  intros H1 H2 Hne Heq. rewrite !cache_path_suffix in Heq.
  destruct (kind_split ext1 H1) as (h1 & E1 & L1).
  destruct (kind_split ext2 H2) as (h2 & E2 & L2).
  rewrite E1, E2, <- !append_assoc in Heq.
  apply append_inj_suffix in Heq; [|congruence].
  by apply Hne, tail3_inj.
Qed.

(** What is read back in text mode has no carriage return left. *)
Lemma no_cr_universal_newlines (s : string) : no_cr (universal_newlines s) = true.
Proof.
  enough (no_cr (universal_newlines s) = true /\
          forall c, no_cr (universal_newlines (String c s)) = true) as [H _] by done.
  induction s as [|c' s [IH1 IH2]].
  - split; [done|]. intros c. cbn. by destruct (is_cr c) eqn:E; cbn; rewrite ?E.
  - split; [apply IH2|].
    intros c. rewrite universal_newlines_cons2. specialize (IH2 c').
    destruct (is_cr c) eqn:E; [destruct (is_lf c')|]; cbn [no_cr]; rewrite ?E;
      by rewrite ?IH1, ?IH2.
Qed.

Lemma universal_newlines_fixed (s : string) :
  universal_newlines s = s <-> no_cr s = true.
Proof.
  split; [|apply universal_newlines_no_cr].
  intros H. rewrite <- H. apply no_cr_universal_newlines.
Qed.

Lemma get_cached_result_json (disk : Disk) (cache_key : string) :
  get_cached_result disk cache_key "json" = disk !! cache_path cache_key "json".
Proof. unfold get_cached_result. by destruct (disk !! _). Qed.

Lemma get_cached_result_file (disk : Disk) (cache_key : string) :
  get_cached_result disk cache_key "file" =
  (fun _ => cache_path cache_key "file") <$> disk !! cache_path cache_key "file".
Proof. unfold get_cached_result. by destruct (disk !! _). Qed.

Lemma get_cached_file_lookup (disk : Disk) (cache_key ext : string) :
  get_cached_file disk cache_key ext =
  (fun _ => cache_path cache_key ext) <$> disk !! cache_path cache_key ext.
Proof. unfold get_cached_file. by destruct (disk !! _). Qed.

(** X1. What [save_to_cache] stores, [get_cached_result] gives back under
    the same key and kind: a JSON document as it was; a text with its line
    ends normalised, hence unchanged exactly when it has no carriage return;
    for the kind "file" the path of the copy, which holds the content of the
    source.  Copying from a source that does not exist raises. *)
Theorem save_to_cache_round_trip (disk : Disk) (cache_key result : string) :
  (exists disk' : Disk,
     save_to_cache disk cache_key result "json" = Ok disk' /\
     get_cached_result disk' cache_key "json" = Some result) /\
  (exists disk' : Disk,
     save_to_cache disk cache_key result "text" = Ok disk' /\
     get_cached_result disk' cache_key "text" = Some (universal_newlines result) /\
     (universal_newlines result = result <-> no_cr result = true)) /\
  (forall content : string,
     disk !! result = Some content ->
     exists disk' : Disk,
       save_to_cache disk cache_key result "file" = Ok disk' /\
       get_cached_result disk' cache_key "file" = Some (cache_path cache_key "file") /\
       disk' !! cache_path cache_key "file" = Some content) /\
  (disk !! result = None ->
   exists e : Exn, save_to_cache disk cache_key result "file" = Raise e).
Proof.
  split; [|split; [|split]].
  - eexists. split; [reflexivity|].
    by rewrite get_cached_result_json, lookup_insert_eq.
  - eexists. split; [reflexivity|]. split.
    + by rewrite get_cached_result_text, lookup_insert_eq.
    + apply universal_newlines_fixed.
  - intros content Hc. exists (<[cache_path cache_key "file" := content]> disk).
    split; [|split].
    + change (save_to_cache disk cache_key result "file")
        with (copy disk result (cache_path cache_key "file")).
      unfold copy. by rewrite Hc.
    + by rewrite get_cached_result_file, lookup_insert_eq.
    + by rewrite lookup_insert_eq.
  - intros Hn.
    change (save_to_cache disk cache_key result "file")
      with (copy disk result (cache_path cache_key "file")).
    unfold copy. rewrite Hn. by eexists.
Qed.

(** X2. [save_file_to_cache] copies the source under the cache path and
    returns that path; [get_cached_file] then finds it, with the content of
    the source, and no other file is changed.  When the source does not
    exist the call raises. *)
Theorem save_file_to_cache_round_trip (disk : Disk)
    (cache_key source_path extension : string) :
  (forall content : string,
     disk !! source_path = Some content ->
     exists disk' : Disk,
       save_file_to_cache disk cache_key source_path extension =
         Ok (cache_path cache_key extension, disk') /\
       get_cached_file disk' cache_key extension = Some (cache_path cache_key extension) /\
       disk' !! cache_path cache_key extension = Some content /\
       (forall path : string,
          path <> cache_path cache_key extension -> disk' !! path = disk !! path)) /\
  (disk !! source_path = None ->
   exists e : Exn,
     save_file_to_cache disk cache_key source_path extension = Raise e) /\
  (get_cached_file disk cache_key extension = None <->
   disk !! cache_path cache_key extension = None).
Proof.
  split; [|split].
  - intros content Hc. exists (<[cache_path cache_key extension := content]> disk).
    unfold save_file_to_cache, copy. rewrite Hc.
    split; [done|]. split; [|split].
    + by rewrite get_cached_file_lookup, lookup_insert_eq.
    + by rewrite lookup_insert_eq.
    + intros path Hne. by rewrite lookup_insert_ne.
  - intros Hn. unfold save_file_to_cache, copy. rewrite Hn. by eexists.
  - rewrite get_cached_file_lookup. by destruct (disk !! _).
Qed.

(** X3. After [clear_cache] nothing is found in the cache, under any key
    and kind, and every file outside the cache directory is as before. *)
Theorem clear_cache_forgets_all (disk : Disk) :
  (forall cache_key result_type : string,
     get_cached_result (clear_cache disk) cache_key result_type = None /\
     get_cached_file (clear_cache disk) cache_key result_type = None) /\
  (forall path : string,
     String.prefix (CACHE_DIR +:+ "/") path = false ->
     clear_cache disk !! path = disk !! path) /\
  clear_cache (clear_cache disk) = clear_cache disk.
Proof.
  assert (forall cache_key ext : string,
            clear_cache disk !! cache_path cache_key ext = None) as Hgone.
  { intros k ext. unfold clear_cache. apply map_lookup_filter_None. right.
    intros x _. cbn. by rewrite cache_path_in_cache_dir. }
  split; [|split].
  - intros k t. split.
    + unfold get_cached_result. by rewrite Hgone.
    + unfold get_cached_file. by rewrite Hgone.
  - intros path Hp. unfold clear_cache.
    destruct (disk !! path) as [x|] eqn:E.
    + apply map_lookup_filter_Some. split; [done|]. cbn. by rewrite Hp.
    + apply map_lookup_filter_None. by left.
  - unfold clear_cache. apply map_filter_id. intros path x H.
    by apply map_lookup_filter_Some in H as [_ H].
Qed.

(** X4. Entries of different kinds are kept apart by their extension,
    whatever the keys: storing an entry of one kind changes nothing that is
    found under another kind. *)
Theorem save_keeps_other_kinds (disk disk' : Disk)
    (key1 key2 result kind1 kind2 : string) :
  kind1 ∈ kinds -> kind2 ∈ kinds -> kind1 <> kind2 ->
  (save_to_cache disk key1 result kind1 = Ok disk' \/
   exists path, save_file_to_cache disk key1 result kind1 = Ok (path, disk')) ->
  get_cached_result disk' key2 kind2 = get_cached_result disk key2 kind2 /\
  get_cached_file disk' key2 kind2 = get_cached_file disk key2 kind2.
Proof.
  intros H1 H2 Hne Hsave.
  assert (disk' !! cache_path key2 kind2 = disk !! cache_path key2 kind2) as E.
  { assert (cache_path key1 kind1 <> cache_path key2 kind2) as Hp
      by by apply kinds_apart.
    destruct Hsave as [Hs|[path Hs]].
    - unfold save_to_cache, copy in Hs.
      repeat case_match; simplify_eq; try done; by rewrite lookup_insert_ne.
    - unfold save_file_to_cache, copy in Hs.
      repeat case_match; simplify_eq. by rewrite lookup_insert_ne. }
  unfold get_cached_result, get_cached_file. by rewrite E.
Qed.

Lemma save_keeps_other_kinds_witness :
  get_cached_result (<[cache_path "k" "json" := "{}"]> ∅) "k" "text" =
  get_cached_result ∅ "k" "text".
Proof.
  destruct (save_keeps_other_kinds ∅ (<[cache_path "k" "json" := "{}"]> ∅)
              "k" "k" "{}" "json" "text") as [H _].
  - unfold kinds. apply elem_of_cons. by left.
  - unfold kinds. apply elem_of_cons. right. apply elem_of_cons. by left.
  - discriminate.
  - left. reflexivity.
  - exact H.
Defined.

End CacheManagerFacts.

(** * Further properties of the segment mapper *)

Module TranscriberCoverage.
Import Py PyFacts Transcriber TranscriberFacts.

Lemma window_end_cases (d : Q) (i : nat) :
  (i < Z.to_nat (ceil (d / 8)))%nat ->
  (S i < Z.to_nat (ceil (d / 8)))%nat /\
    (window_end d (Z.of_nat i) == inject_Z (Z.of_nat i) * 8 + 8)%Q \/
  S i = Z.to_nat (ceil (d / 8)) /\ (window_end d (Z.of_nat i) == d)%Q.
Proof.
  intros Hi. destruct (ceil_bounds d) as [Hlo Hhi].
  pose proof (inject_Z_mul8 (Z.of_nat i + 1)) as E.
  rewrite inject_Z_plus in E. change (inject_Z 1) with 1%Q in E.
  unfold window_end.
  destruct (decide (S i < Z.to_nat (ceil (d / 8)))%nat) as [Hlt|Hge].
  - left. split; [done|]. apply index_below_ceil in Hlt.
    rewrite Nat2Z.inj_succ in Hlt. unfold Z.succ in Hlt.
    rewrite inject_Z_plus in Hlt. change (inject_Z 1) with 1%Q in Hlt.
    destruct (min_spec (inject_Z ((Z.of_nat i + 1) * 8)) d) as [[H _]|[_ ->]]; lra.
  - right. split; [lia|].
    assert (Z.of_nat i + 1 = ceil (d / 8)) as En by lia.
    rewrite <- En in Hhi. rewrite inject_Z_plus in Hhi.
    change (inject_Z 1) with 1%Q in Hhi.
    destruct (min_spec (inject_Z ((Z.of_nat i + 1) * 8)) d) as [[_ ->]|[H ->]];
      [reflexivity|lra].
Qed.

(** X5. Every window is at most 8 seconds wide and not empty; every
    window but the last is exactly 8 seconds wide; the last one ends with the
    song and is shorter than 8 seconds exactly when the duration is not a
    multiple of 8. *)
Theorem window_widths (tr : Transcription) (d : Q) (i : nat) (s : Segment) :
  map_to_video_segments tr d !! i = Some s ->
  (0 < seg_end s - seg_start s)%Q /\
  (seg_end s - seg_start s <= 8)%Q /\
  ((S i < length (map_to_video_segments tr d))%nat ->
   (seg_end s - seg_start s == 8)%Q) /\
  (S i = length (map_to_video_segments tr d) ->
   (seg_end s == d)%Q /\
   ((seg_end s - seg_start s < 8)%Q <->
    ~ exists k : Z, (d == inject_Z (8 * k))%Q)).
Proof.
  intros Hs. rewrite length_map_to_video_segments.
  apply lookup_map_to_video_segments in Hs as [Hi ->].
  destruct (ceil_bounds d) as [Hlo Hhi].
  pose proof (index_below_ceil d i Hi) as Hn.
  pose proof (inject_Z_mul8 (Z.of_nat i)) as E.
  unfold seg_end, seg_start, window. cbn [fst snd]. unfold window_start.
  destruct (window_end_cases d i Hi) as [[Hlt Hw]|[Hlast Hw]].
  - split; [lra|]. split; [lra|]. split; [intros _; lra|]. intros Hl. lia.
  - assert (inject_Z (ceil (d / 8)) == inject_Z (Z.of_nat i) + 1)%Q as En.
    { assert (ceil (d / 8) = Z.of_nat i + 1) as -> by lia.
      by rewrite inject_Z_plus. }
    split; [lra|]. split; [lra|]. split; [intros Hl; lia|].
    intros _. split; [done|]. split.
    + intros Hshort [k Hk].
      rewrite Z.mul_comm, inject_Z_mul8 in Hk.
      assert (inject_Z (Z.of_nat i) < inject_Z k)%Q as H1 by lra.
      assert (inject_Z k < inject_Z (Z.of_nat i + 1))%Q as H2.
      { rewrite inject_Z_plus. change (inject_Z 1) with 1%Q. lra. }
      rewrite <- Zlt_Qlt in H1, H2. lia.
    + intros Hnot.
      destruct (Qlt_le_dec (window_end d (Z.of_nat i) - inject_Z (Z.of_nat i * 8)) 8)
        as [Hlt|Hge]; [done|].
      exfalso. apply Hnot. exists (Z.of_nat i + 1).
      rewrite Z.mul_comm, inject_Z_mul8, inject_Z_plus.
      change (inject_Z 1) with 1%Q. lra.
Qed.

Lemma window_widths_witness :
  map_to_video_segments sample_transcription 20 !! 2%nat = Some (16%Q, 20%Q, "la la hey") /\
  (seg_end (16%Q, 20%Q, "la la hey") - seg_start (16%Q, 20%Q, "la la hey") < 8)%Q.
Proof.
  split; [reflexivity|].
  destruct (window_widths sample_transcription 20 2 (16%Q, 20%Q, "la la hey") eq_refl)
    as (_ & _ & _ & H).
  destruct (H eq_refl) as [_ [_ H2]]. apply H2.
  intros [k Hk]. unfold Qeq in Hk. cbn in Hk. lia.
Defined.

(** X6. No lyric of the song is lost: a chunk with both ends of its time
    range, not empty and meeting the span of a song of positive duration, is
    taken by at least one
    window, whose text is then the join of the texts collected for it, the
    chunk's stripped text among them. *)
Theorem every_chunk_is_placed (tr : Transcription) (d : Q) (c : Chunk) (cs ce : Q) :
  In c (get_chunks tr) ->
  get_timestamp c = (Some cs, Some ce) ->
  (0 < d)%Q -> (cs < ce)%Q -> (0 < ce)%Q -> (cs < d)%Q ->
  exists (i : nat) (s : Segment),
    map_to_video_segments tr d !! i = Some s /\
    (cs < seg_end s)%Q /\ (seg_start s < ce)%Q /\
    In (strip (chunk_text c)) (overlapping (seg_start s) (seg_end s) (get_chunks tr)) /\
    seg_text s = join " " (overlapping (seg_start s) (seg_end s) (get_chunks tr)).
Proof.
  intros Hin Hts Hpos Hlt Hce Hd.
  set (x := if ltb cs 0 then 0%Q else cs).
  assert (0 <= x /\ cs <= x /\ x < ce /\ x < d)%Q as (Hx0 & Hx1 & Hx2 & Hx3).
  { subst x. destruct (ltb cs 0) eqn:E.
    - apply ltb_lt in E. repeat split; lra.
    - apply ltb_ge in E. repeat split; lra. }
  pose proof (Qfloor_le (x / 8)) as Hfl. pose proof (Qlt_floor (x / 8)) as Hfu.
  rewrite inject_Z_plus in Hfu. change (inject_Z 1) with 1%Q in Hfu.
  assert (x == x / 8 * 8)%Q as Ex by field.
  set (k := Qfloor (x / 8)) in *.
  assert (0 <= k) as Hk0.
  { assert (-1 < k) as H; [|lia]. rewrite Zlt_Qlt.
    change (inject_Z (-1)) with (-1 # 1)%Q. lra. }
  destruct (ceil_bounds d) as [Hlo Hhi].
  assert (k < ceil (d / 8)) as Hkn.
  { rewrite Zlt_Qlt. lra. }
  exists (Z.to_nat k), (window tr d k).
  assert (map_to_video_segments tr d !! Z.to_nat k = Some (window tr d k)) as Hw.
  { rewrite lookup_window by lia. by rewrite Z2Nat.id. }
  pose proof (inject_Z_mul8 k) as E1. pose proof (inject_Z_mul8 (k + 1)) as E2.
  rewrite inject_Z_plus in E2. change (inject_Z 1) with 1%Q in E2.
  assert (cs < window_end d k /\ window_start k < ce)%Q as [Hwe Hws].
  { unfold window_end, window_start. split; [|lra].
    destruct (min_spec (inject_Z ((k + 1) * 8)) d) as [[_ ->]|[_ ->]]; lra. }
  assert (In (strip (chunk_text c))
            (overlapping (window_start k) (window_end d k) (get_chunks tr))) as Hmem.
  { rewrite overlapping_filter.
    apply (in_map (fun c => strip (chunk_text c))). apply List.filter_In.
    split; [done|]. by apply (overlapsb_iff _ _ _ cs ce). }
  split; [done|]. unfold seg_start, seg_end. cbn [window fst snd].
  split; [done|]. split; [done|]. split; [done|].
  unfold seg_text, window, window_lyrics. cbn [snd].
  rewrite overlapping_filter in Hmem |- *. unfold window_texts.
  by destruct (map _ _).
Qed.

Lemma every_chunk_is_placed_witness :
  exists (i : nat) (s : Segment),
    map_to_video_segments sample_transcription 20 !! i = Some s /\
    In (strip (chunk_text chunk_8_9))
       (overlapping (seg_start s) (seg_end s) (get_chunks sample_transcription)).
Proof.
  destruct (every_chunk_is_placed sample_transcription 20 chunk_8_9 8 9)
    as (i & s & Hs & _ & _ & Hin & _).
  - right. by left.
  - reflexivity.
  - reflexivity.
  - reflexivity.
  - reflexivity.
  - reflexivity.
  - exists i, s. split; [exact Hs|exact Hin].
Defined.

End TranscriberCoverage.

(** * Further properties of the assembler *)

Module VideoStitcherBounds.
Import Py PyFacts VideoStitcher VideoStitcherFacts.

(** What the loop adds to the clips it starts from. *)
Lemma load_clips_added (disk : Disk) (T : Q) (paths : list string) :
  forall (clips clips' : list Clip) (tot tot' : Q),
  load_clips disk paths T clips tot = Ok (clips', tot') ->
  exists added : list Clip,
    clips' = clips ++ added /\
    (tot' == tot + sum_durations added)%Q /\
    (added <> [] -> (tot' <= T)%Q) /\
    map clip_source added `prefix_of` paths /\
    Forall (fun cl => disk !! clip_source cl <> None /\
                      (clip_duration cl <= dur disk (clip_source cl))%Q) added.
Proof.
  induction paths as [|p rest IH]; intros clips clips' tot tot' H.
  - injection H as <- <-. exists []. rewrite app_nil_r. cbn.
    split; [done|]. split; [lra|]. split; [done|]. split; [done|constructor].
  - cbn [load_clips] in H. unfold VideoFileClip in H.
    destruct (disk !! p) as [f|] eqn:Hp; [|discriminate H].
    cbn [clip_duration] in H.
    destruct (leb (T - tot) 0) eqn:Hr.
    + injection H as <- <-. exists []. rewrite app_nil_r. cbn.
      split; [done|]. split; [lra|]. split; [done|].
      split; [apply prefix_nil|constructor].
    + apply leb_gt in Hr.
      set (clip := if ltb (T - tot) (file_duration f)
                   then subclip {| clip_source := p; clip_duration := file_duration f |}
                                (T - tot)
                   else {| clip_source := p; clip_duration := file_duration f |}) in H.
      assert (clip_source clip = p /\ (clip_duration clip <= T - tot)%Q /\
              (clip_duration clip <= file_duration f)%Q) as (Hsrc & Hfit & Hle).
      { subst clip. destruct (ltb (T - tot) (file_duration f)) eqn:E.
        - apply ltb_lt in E. cbn. split; [done|]. split; lra.
        - apply ltb_ge in E. cbn. split; [done|]. split; lra. }
      clearbody clip.
      destruct (IH _ _ _ _ H) as (added & -> & Htot & Hbound & Hpre & Hall).
      exists (clip :: added). rewrite <- app_assoc. split; [done|].
      split; [cbn [sum_durations fold_right]; fold (sum_durations added); lra|].
      split; [|split].
      * intros _. destruct added as [|a added']; [cbn in Htot; lra|].
        by apply Hbound.
      * cbn. rewrite Hsrc. by apply prefix_cons.
      * constructor; [|done]. rewrite Hsrc. unfold dur. rewrite Hp. done.
Qed.

Lemma sum_durations_nil_iff_pos (clips : list Clip) :
  (0 < sum_durations clips)%Q -> clips <> [].
Proof. intros H ->. cbn in H. lra. Qed.

(** X7. Whatever [stitch_videos] writes is within bounds: the video is
    no longer than the song duration asked for and no longer than the audio;
    its visual track is not empty and is made of the first files of the list,
    in the order given, none skipped and none played for longer than it
    lasts; it carries the audio track; the result is the output path. *)
Theorem stitched_video_bounds (disk disk' : Disk) (video_paths : list string)
    (audio_path output_path p : string) (T : Q) :
  stitch_videos disk video_paths audio_path T output_path = (Ok p, disk') ->
  exists (v : Video) (f : File),
    p = output_path /\
    disk' = <[output_path := Written v]> disk /\
    disk !! audio_path = Some f /\
    (video_duration v <= T)%Q /\
    (video_duration v <= file_duration f)%Q /\
    video_audio v = Some audio_path /\
    video_clips v <> [] /\
    map clip_source (video_clips v) `prefix_of` video_paths /\
    Forall (fun cl => disk !! clip_source cl <> None /\
                      (clip_duration cl <= dur disk (clip_source cl))%Q)
           (video_clips v).
Proof.
  unfold stitch_videos, compose. intros H.
  destruct (load_clips disk video_paths T [] 0) as [[clips tot]|e] eqn:Hload;
    [|discriminate H].
  destruct (load_clips_added _ _ _ _ _ _ _ Hload)
    as (added & Heq & Htot & Hbound & Hpre & Hall).
  cbn [app] in Heq. subst added.
  destruct clips as [|c0 clips0] eqn:Hc; [discriminate H|]. rewrite <- Hc in *.
  assert (clips <> []) as Hne by (by rewrite Hc).
  unfold concatenate_videoclips in H. rewrite Hc in H. rewrite <- Hc in H.
  unfold AudioFileClip in H.
  destruct (disk !! audio_path) as [f|] eqn:Hf; [|discriminate H].
  cbn [set_audio video_duration video_clips] in H.
  injection H as <- <-.
  eexists. exists f. split; [done|]. split; [reflexivity|]. split; [done|].
  specialize (Hbound Hne).
  destruct (ltb (file_duration f) (sum_durations clips)) eqn:E.
  - apply ltb_lt in E. unfold video_subclip, set_audio.
    cbn [video_clips video_duration video_audio]. repeat split; try done; lra.
  - apply ltb_ge in E. unfold set_audio.
    cbn [video_clips video_duration video_audio]. repeat split; try done; lra.
Qed.

Lemma stitched_video_bounds_witness :
  exists (v : Video) (f : File),
    disk_5_5_5 !! "downloads/song.mp3" = Some f /\
    (video_duration v <= 12)%Q /\
    map clip_source (video_clips v) `prefix_of` paths_5_5_5.
Proof.
  destruct (stitched_video_bounds disk_5_5_5
              (snd (stitch_videos disk_5_5_5 paths_5_5_5 "downloads/song.mp3" 12
                      "downloads/final_video.mp4"))
              paths_5_5_5 "downloads/song.mp3" "downloads/final_video.mp4"
              "downloads/final_video.mp4" 12)
    as (v & f & _ & _ & Hf & HT & _ & _ & _ & Hpre & _).
  - vm_compute. reflexivity.
  - exists v, f. split; [exact Hf|]. split; [exact HT|exact Hpre].
Defined.

(** With enough footage the loop stops exactly at the target. *)
Lemma load_clips_enough (disk : Disk) (T : Q) (paths : list string) :
  forall (clips : list Clip) (tot : Q),
  Forall (fun p => is_Some (disk !! p)) paths ->
  Forall (fun p => (0 <= dur disk p)%Q) paths ->
  (tot <= T)%Q ->
  (T <= tot + total disk paths)%Q ->
  exists (clips' : list Clip) (tot' : Q),
    load_clips disk paths T clips tot = Ok (clips', tot') /\
    (tot' == T)%Q /\
    (sum_durations clips' == sum_durations clips + (T - tot))%Q.
Proof.
  induction paths as [|p rest IH]; intros clips tot Hex Hnn Hle Hge.
  - unfold total in Hge. cbn in Hge. exists clips, tot. split; [done|]. split; lra.
  - inversion Hex as [|? ? Hp Hex']; subst.
    inversion Hnn as [|? ? Hp0 Hnn']; subst.
    pose proof (total_nonneg _ _ Hnn') as Hrest.
    assert (total disk (p :: rest) == dur disk p + total disk rest)%Q as Et
      by (unfold total; simpl; lra).
    cbn [load_clips]. rewrite VideoFileClip_Some by done.
    destruct (leb (T - tot) 0) eqn:Hr.
    + apply leb_le in Hr. exists clips, tot. split; [done|]. split; lra.
    + apply leb_gt in Hr.
      destruct (ltb (T - tot) (clip_duration (full_clip disk p))) eqn:Hl.
      * apply ltb_lt in Hl. cbn in Hl.
        destruct (IH (clips ++ [subclip (full_clip disk p) (T - tot)])
                     (tot + clip_duration (subclip (full_clip disk p) (T - tot)))%Q
                     Hex' Hnn') as (clips' & tot' & Hload & Htot & Hsum).
        -- cbn. lra.
        -- cbn. lra.
        -- exists clips', tot'. split; [done|]. split; [done|].
           rewrite Hsum, sum_durations_app. cbn. lra.
      * apply ltb_ge in Hl. cbn in Hl.
        destruct (IH (clips ++ [full_clip disk p])
                     (tot + clip_duration (full_clip disk p))%Q
                     Hex' Hnn') as (clips' & tot' & Hload & Htot & Hsum).
        -- cbn. lra.
        -- cbn. lra.
        -- exists clips', tot'. split; [done|]. split; [done|].
           rewrite Hsum, sum_durations_app. cbn. lra.
Qed.

(** X8. With enough footage the video lasts exactly as long as asked:
    when the files exist, no clip has a negative duration and the clips add up
    to at least the (positive) song duration, the call succeeds and the video
    written lasts for the song duration, or for the audio's duration when the
    audio is shorter. *)
Theorem stitch_enough_footage (disk : Disk) (video_paths : list string)
    (audio_path output_path : string) (T : Q) (f : File) :
  (0 < T)%Q ->
  Forall (fun p => is_Some (disk !! p)) video_paths ->
  Forall (fun p => (0 <= dur disk p)%Q) video_paths ->
  (T <= total disk video_paths)%Q ->
  disk !! audio_path = Some f ->
  exists v : Video,
    stitch_videos disk video_paths audio_path T output_path =
      (Ok output_path, <[output_path := Written v]> disk) /\
    (sum_durations (video_clips v) == T)%Q /\
    ((T <= file_duration f)%Q -> (video_duration v == T)%Q) /\
    ((file_duration f < T)%Q -> (video_duration v == file_duration f)%Q).
Proof.
  intros HT Hex Hnn Hge Hf.
  destruct (load_clips_enough disk T video_paths [] 0%Q Hex Hnn)
    as (clips & tot & Hload & Htot & Hsum); [lra..|].
  cbn in Hsum.
  assert (clips <> []) as Hne by (apply sum_durations_nil_iff_pos; lra).
  unfold stitch_videos.
  rewrite (compose_of_clips disk _ audio_path T tot _ f Hload Hne Hf). cbv zeta.
  eexists. split; [reflexivity|].
  destruct (ltb (file_duration f) (sum_durations clips)) eqn:E.
  - apply ltb_lt in E. unfold video_subclip. cbn [video_clips video_duration].
    split; [lra|]. split; intros H; lra.
  - apply ltb_ge in E. cbn [video_clips video_duration].
    split; [lra|]. split; intros H; lra.
Qed.

Lemma stitch_enough_footage_witness :
  exists v : Video,
    stitch_videos disk_5_5_5 paths_5_5_5 "downloads/song.mp3" 15
      "downloads/final_video.mp4" =
      (Ok "downloads/final_video.mp4",
       <["downloads/final_video.mp4" := Written v]> disk_5_5_5) /\
    (video_duration v == 12)%Q.
Proof.
  destruct (stitch_enough_footage disk_5_5_5 paths_5_5_5 "downloads/song.mp3"
              "downloads/final_video.mp4" 15 (MediaFile 12))
    as (v & Hv & _ & _ & Hshort).
  - reflexivity.
  - repeat constructor; by eexists.
  - repeat constructor; vm_compute; discriminate.
  - vm_compute. discriminate.
  - reflexivity.
  - exists v. split; [exact Hv|]. apply Hshort. reflexivity.
Defined.


End VideoStitcherBounds.

(** * Further properties of the segment job and the batch *)

Module VideoGeneratorTrace.
Import Py PyFacts CacheManager VideoGenerator VideoGeneratorFacts CacheManagerFacts.




Lemma cache_path_truthy (cache_key ext : string) :
  truthy (cache_path cache_key ext) = true.
Proof. done. Qed.

(** A job whose video is cached: the copy is made and nothing is asked
    of the remote service. *)
Lemma generate_video_segment_hit (get_cache_key : list Arg -> string)
    (remote : Remote) (disk : Disk) (lyrics : string) (index : nat)
    (genre : option string) (output_dir content : string) :
  disk !! cache_path (video_cache_key get_cache_key (veo3_prompt_of genre lyrics) index)
            "mp4" = Some content ->
  generate_video_segment get_cache_key remote disk lyrics index genre output_dir true =
  (Ok (output_path_of output_dir index),
   <[output_path_of output_dir index := content]> disk, []).
Proof.
  intros H. unfold generate_video_segment. cbv zeta.
  rewrite get_cached_file_lookup, H. cbn [fmap option_fmap option_map truthy_opt].
  rewrite cache_path_truthy. unfold copy, default. cbn [from_option id]. by rewrite H.
Qed.

Lemma download_loop_saved (remote : Remote) (saved : option string)
    (events : list Event) :
  download_loop remote (range download_retries) = (Ok saved, events) ->
  exists video : string, saved = Some video.
Proof.
  intros H. destruct (download_loop_policy remote) as (k & _ & _ & _ & Hlast).
  rewrite H in Hlast. cbn [fst] in Hlast.
  destruct (download remote (k - 1)) as [video|e].
  - injection Hlast as ->. by exists video.
  - destruct Hlast as [[e' He'] _]. discriminate He'.
Qed.

(** What a successful job leaves on disk. *)
Lemma generate_video_segment_stored (get_cache_key : list Arg -> string)
    (remote : Remote) (disk disk1 : Disk) (lyrics : string) (index : nat)
    (genre : option string) (output_dir path : string) (events : list Event) :
  generate_video_segment get_cache_key remote disk lyrics index genre output_dir true =
    (Ok path, disk1, events) ->
  path = output_path_of output_dir index /\
  exists content : string,
    disk1 !! path = Some content /\
    disk1 !! cache_path (video_cache_key get_cache_key (veo3_prompt_of genre lyrics) index)
              "mp4" = Some content.
Proof.
  unfold generate_video_segment. cbv zeta.
  set (key := video_cache_key get_cache_key (veo3_prompt_of genre lyrics) index).
  set (out := output_path_of output_dir index).
  rewrite get_cached_file_lookup.
  destruct (disk !! cache_path key "mp4") as [content|] eqn:Hc.
  - cbn [fmap option_fmap option_map truthy_opt]. rewrite cache_path_truthy.
    unfold copy, default. cbn [from_option id]. rewrite Hc. intros [= <- <- <-].
    split; [done|]. exists content. rewrite lookup_insert_eq. split; [done|].
    destruct (decide (out = cache_path key "mp4")) as [->|Hne].
    + by rewrite lookup_insert_eq.
    + by rewrite lookup_insert_ne.
  - cbn [fmap option_fmap option_map truthy_opt].
    destruct (generation_loop remote (range max_retries) 5) as [[[]|e] ev];
      [|intros H; discriminate H].
    destruct (download_loop remote (range download_retries)) as [[saved|e] ev'] eqn:Hd;
      [|intros H; discriminate H].
    destruct (download_loop_saved _ _ _ Hd) as [video ->].
    unfold save_file_to_cache, copy. rewrite lookup_insert_eq.
    intros [= <- <- <-]. split; [done|]. exists video.
    rewrite lookup_insert_eq. split; [|done].
    destruct (decide (cache_path key "mp4" = out)) as [->|Hne].
    + by rewrite lookup_insert_eq.
    + rewrite lookup_insert_ne by done. by rewrite lookup_insert_eq.
Qed.

(** X11. The cache of the video stage works: after a job that succeeded
    with the cache on, the output file and the cache entry hold the same
    video, and running the job again with the same arguments gives the same
    path, leaves the disk as it is and asks nothing of the remote service,
    whatever the service would do. *)
Theorem generate_video_segment_reuses_cache (get_cache_key : list Arg -> string)
    (remote remote' : Remote) (disk disk1 : Disk) (lyrics : string) (index : nat)
    (genre : option string) (output_dir path : string) (events : list Event) :
  generate_video_segment get_cache_key remote disk lyrics index genre output_dir true =
    (Ok path, disk1, events) ->
  (exists content : string,
     disk1 !! path = Some content /\
     disk1 !! cache_path (video_cache_key get_cache_key (veo3_prompt_of genre lyrics) index)
               "mp4" = Some content) /\
  generate_video_segment get_cache_key remote' disk1 lyrics index genre output_dir true =
    (Ok path, disk1, []).
Proof.
  intros H.
  destruct (generate_video_segment_stored _ _ _ _ _ _ _ _ _ _ H)
    as (-> & content & Hout & Hcache).
  split; [by exists content|].
  rewrite (generate_video_segment_hit _ _ _ _ _ _ _ _ Hcache).
  by rewrite (insert_id _ _ _ Hout).
Qed.

Lemma generate_video_segment_reuses_cache_witness :
  generate_video_segment sample_key never_finishes
    (generate_video_segment sample_key always_ready ∅ "la la" 0 (Some "pop")
       "videos" true).1.2
    "la la" 0 (Some "pop") "videos" true =
  (Ok "videos/segment_000.mp4",
   (generate_video_segment sample_key always_ready ∅ "la la" 0 (Some "pop")
      "videos" true).1.2, []).
Proof.
  destruct (generate_video_segment_reuses_cache sample_key always_ready never_finishes ∅
              (generate_video_segment sample_key always_ready ∅ "la la" 0 (Some "pop")
                 "videos" true).1.2
              "la la" 0 (Some "pop") "videos" "videos/segment_000.mp4"
              [Submit 0; Download 0]) as [_ H].
  - vm_compute. reflexivity.
  - exact H.
Defined.

Definition is_generation_event (ev : Event) : Prop :=
  match ev with Submit _ | Backoff _ => True | _ => False end.

Definition is_download_event (ev : Event) : Prop :=
  match ev with Download _ | DownloadDelay _ => True | _ => False end.

Lemma generation_loop_events (remote : Remote) (attempts : list nat) :
  forall d : Z, Forall is_generation_event (generation_loop remote attempts d).2.
Proof.
  induction attempts as [|a rest IH]; intros d; cbn [generation_loop].
  - constructor.
  - destruct (submit_and_poll remote a) as [[]|e]; [by repeat constructor|].
    specialize (IH (d * 2)).
    destruct (generation_loop remote rest (d * 2)) as [r ev].
    destruct (exn_class e), (a <? max_retries - 1)%nat; by repeat constructor.
Qed.

Lemma download_loop_events (remote : Remote) (attempts : list nat) :
  Forall is_download_event (download_loop remote attempts).2.
Proof.
  induction attempts as [|a rest IH]; cbn [download_loop].
  - constructor.
  - destruct (download remote a) as [v|e]; [by repeat constructor|].
    destruct (download_loop remote rest) as [r ev].
    destruct (is_transient (exn_class e)), (a <? download_retries - 1)%nat;
      by repeat constructor.
Qed.

(** X12. The order of a job's work: whatever the outcome, its trace is
    the submissions and waits of the first leg followed by the downloads and
    waits of the second; no download is made unless a submission was
    completed, and nothing is submitted once downloading has begun.  A job
    that fails for either leg leaves the disk as it found it. *)
Theorem job_trace_shape (get_cache_key : list Arg -> string) (remote : Remote)
    (disk : Disk) (lyrics : string) (index : nat) (genre : option string)
    (output_dir : string) (use_cache : bool) :
  exists ge de : list Event,
    (generate_video_segment get_cache_key remote disk lyrics index genre
       output_dir use_cache).2 = ge ++ de /\
    Forall is_generation_event ge /\
    Forall is_download_event de /\
    (de <> [] -> (generation_loop remote (range max_retries) 5).1 = Ok tt) /\
    (is_failure (generation_loop remote (range max_retries) 5).1 \/
     is_failure (download_loop remote (range download_retries)).1 ->
     forall e, (generate_video_segment get_cache_key remote disk lyrics index genre
                  output_dir use_cache).1.1 = Raise e ->
     (generate_video_segment get_cache_key remote disk lyrics index genre
        output_dir use_cache).1.2 = disk).
Proof.
  unfold generate_video_segment. cbv zeta.
  destruct (truthy_opt _).
  { exists [], []. destruct (copy _ _ _); cbn; repeat split; try done;
      try constructor. }
  pose proof (generation_loop_events remote (range max_retries) 5) as Hg.
  pose proof (download_loop_events remote (range download_retries)) as Hd.
  destruct (generation_loop remote (range max_retries) 5) as [[[]|eg] evg].
  - destruct (download_loop remote (range download_retries)) as [[saved|ed] evd].
    + exists evg, evd. cbn [fst snd] in *.
      destruct use_cache; [destruct (save_file_to_cache _ _ _ _) as [[? ?]|?]|];
        cbn [fst snd]; repeat split; try done.
      all: intros [[e' He']|[e' He']]; discriminate He'.
    + exists evg, evd. cbn [fst snd] in *. repeat split; done.
  - exists evg, []. cbn [fst snd] in *. rewrite app_nil_r.
    repeat split; done.
Qed.



(** The number a string of decimal digits stands for, leading zeros
    allowed. *)
Definition digit (c : ascii) : N := N.of_nat (nat_of_ascii c) - 48.

Fixpoint value_go (acc : N) (s : string) : N :=
  match s with
  | EmptyString => acc
  | String c s' => value_go (acc * 10 + digit c) s'
  end.

Lemma digit_pretty_N_char (d : N) : (d < 10)%N -> digit (pretty_N_char d) = d.
Proof.
  intros H.
  assert (d = 0 \/ d = 1 \/ d = 2 \/ d = 3 \/ d = 4 \/ d = 5 \/ d = 6 \/ d = 7
          \/ d = 8 \/ d = 9)%N as Hd by lia.
  repeat (destruct Hd as [->|Hd]; [done|]). by subst.
Qed.

Lemma value_go_pretty_N_go (x : N) :
  forall s : string, value_go 0 (pretty_N_go x s) = value_go x s.
Proof.
  induction (N.lt_wf_0 x) as [x _ IH]. intros s.
  assert (x = 0 \/ 0 < x)%N as [->|Hx] by lia.
  - by rewrite pretty_N_go_0.
  - rewrite pretty_N_go_step by done.
    rewrite IH by (by apply N.div_lt). cbn [value_go].
    rewrite digit_pretty_N_char by (by apply N.mod_lt).
    f_equal. pose proof (N.div_mod x 10). lia.
Qed.

Lemma value_go_pretty (n : nat) : value_go 0 (pretty n) = N.of_nat n.
Proof.
  unfold pretty, pretty_nat, pretty, pretty_N.
  destruct (decide (N.of_nat n = 0%N)) as [->|_]; [done|].
  by rewrite value_go_pretty_N_go.
Qed.

Lemma value_go_zeros (k : nat) (s : string) :
  value_go 0 (String.concat EmptyString (replicate k "0") +:+ s) = value_go 0 s.
Proof.
  induction k as [|k IH]; [done|].
  destruct k as [|k'].
  - done.
  - cbn [replicate String.concat] in *. rewrite append_assoc.
    rewrite append_cons, append_nil. cbn [value_go]. exact IH.
Qed.

Lemma pad3_value (n : nat) : value_go 0 (pad3 n) = N.of_nat n.
Proof. unfold pad3. cbv zeta. by rewrite value_go_zeros, value_go_pretty. Qed.

Lemma append_cancel_l (a x y : string) : a +:+ x = a +:+ y -> x = y.
Proof.
  induction a as [|c a IH]; [done|].
  rewrite !append_cons. intros [= H]. by apply IH.
Qed.

Lemma append_cancel_r (x y s : string) : x +:+ s = y +:+ s -> x = y.
Proof.
  intros H.
  assert (String.length x = String.length y) as Hlen.
  { apply (f_equal String.length) in H. rewrite !length_append in H. lia. }
  revert y H Hlen. induction x as [|c x IH]; intros [|c' y] H Hlen;
    try discriminate Hlen; [done|].
  rewrite !append_cons in H. injection H as -> H. f_equal.
  apply IH; [done|]. cbn in Hlen. lia.
Qed.

Lemma output_path_of_inj (output_dir : string) (i j : nat) :
  output_path_of output_dir i = output_path_of output_dir j -> i = j.
Proof.
  unfold output_path_of. intros H.
  apply append_cancel_l, append_cancel_l in H.
  apply append_cancel_r in H.
  apply (f_equal (value_go 0)) in H. rewrite !pad3_value in H. lia.
Qed.

Section Distinct.
Context (get_cache_key : list Arg -> string) (client : nat -> Remote)
        (disk : Disk) (genre : option string) (output_dir : string)
        (use_cache : bool).

(** A batch that returns has seen every job succeed. *)
Lemma batch_Ok_paths (video_segments : list Transcriber.Segment)
    (completion_order : list nat) (max_workers : Z)
    (paths : list (option string)) :
  Permutation completion_order (seq 0 (length video_segments)) ->
  generate_all_videos get_cache_key client disk completion_order video_segments
    genre output_dir use_cache max_workers = Ok paths ->
  paths = map (fun i => Some (output_path_of output_dir i))
              (seq 0 (length video_segments)).
Proof.
  intros Hperm H.
  assert (0 < max_workers) as Hw.
  { unfold generate_all_videos in H.
    destruct (max_workers <=? 0) eqn:E; [discriminate H|lia]. }
  assert (forall i, i ∈ completion_order <-> (i < length video_segments)%nat) as Hin.
  { intros i. rewrite Hperm, elem_of_seq. lia. }
  assert (forall i segment, video_segments !! i = Some segment ->
            exists path,
              job get_cache_key client disk genre output_dir use_cache i segment
              = Ok path) as Hall.
  { intros i segment Hs. unfold generate_all_videos in H.
    assert ((max_workers <=? 0) = false) as E by lia. rewrite E in H.
    fold (worker get_cache_key client disk genre output_dir use_cache) in H.
    destruct (collect _ ∅) as [m'|e] eqn:Hc; [|discriminate H].
    apply collect_Ok_no_error in Hc. rewrite Forall_forall in Hc.
    assert (worker get_cache_key client disk genre output_dir use_cache (i, segment) ∈
            omap (fun position =>
                    map (worker get_cache_key client disk genre output_dir use_cache)
                        (enumerate video_segments) !! position)
                 completion_order) as Hw'.
    { apply list_elem_of_omap. exists i. split.
      - apply Hin. by eapply lookup_lt_Some.
      - by apply futures_lookup. }
    specialize (Hc _ Hw'). rewrite worker_job in Hc.
    destruct (job _ _ _ _ _ _ i segment) as [path|e] eqn:Hj; [eauto|].
    cbn in Hc. by rewrite (job_Raise_truthy _ _ _ _ _ _ _ _ _ Hj) in Hc. }
  rewrite (all_jobs_succeed _ _ _ _ _ _ _ _ _ Hw Hperm Hall) in H.
  by injection H as <-.
Qed.

(** X14. No two segments share an output file: the output path of a
    job determines its index, and the paths a batch returns are pairwise
    distinct, one for each segment. *)
Theorem batch_paths_distinct (video_segments : list Transcriber.Segment)
    (completion_order : list nat) (max_workers : Z)
    (paths : list (option string)) :
  Permutation completion_order (seq 0 (length video_segments)) ->
  generate_all_videos get_cache_key client disk completion_order video_segments
    genre output_dir use_cache max_workers = Ok paths ->
  NoDup paths /\
  length paths = length video_segments /\
  (forall i j : nat,
     output_path_of output_dir i = output_path_of output_dir j <-> i = j).
Proof.
  intros Hperm H. rewrite (batch_Ok_paths _ _ _ _ Hperm H).
  split; [|split].
  - apply NoDup_fmap_2; [|apply NoDup_seq].
    intros i j [= Hij]. by apply output_path_of_inj in Hij.
  - by rewrite length_map, length_seq.
  - intros i j. split; [apply output_path_of_inj|by intros ->].
Qed.

End Distinct.

Lemma batch_paths_distinct_witness :
  NoDup [Some "videos/segment_000.mp4"; Some "videos/segment_001.mp4";
         Some "videos/segment_002.mp4"].
Proof.
  destruct (batch_paths_distinct sample_key all_ready ∅ (Some "pop") "videos" true
              three_segments [2; 0; 1]%nat 4
              [Some "videos/segment_000.mp4"; Some "videos/segment_001.mp4";
               Some "videos/segment_002.mp4"]) as [H _].
  - eapply perm_trans; [apply perm_swap|]. apply perm_skip, perm_swap.
  - vm_compute. reflexivity.
  - exact H.
Defined.

End VideoGeneratorTrace.

(** * Properties of the music stage and of the style prompt *)

Module MusicGeneratorFacts.
Import Py PyFacts CacheManager LlmHandler MusicGenerator CacheManagerFacts.

(** The cache key of a music request. *)
Definition music_key (get_cache_key : list Arg -> string) (lyrics style_prompt : string)
    : string :=
  get_cache_key [AStr "music"; AStr lyrics; AStr style_prompt].

Lemma generate_music_hit (get_cache_key : list Arg -> string) (run : Replicate)
    (probe : string -> Result Q) (w : World) (lyrics style_prompt output_path : string)
    (bytes : string) :
  disk w !! cache_path (music_key get_cache_key lyrics style_prompt) "mp3" = Some bytes ->
  generate_music get_cache_key run probe w lyrics style_prompt output_path true =
  match probe bytes with
  | Ok duration =>
      (Ok (output_path, duration),
       {| disk := <[output_path := bytes]> (disk w); remote_calls := remote_calls w |})
  | Raise e =>
      (Raise e,
       {| disk := <[output_path := bytes]> (disk w); remote_calls := remote_calls w |})
  end.
Proof.
  intros H. unfold generate_music. cbv zeta.
  fold (music_key get_cache_key lyrics style_prompt).
  rewrite get_cached_file_lookup, H. cbn [fmap option_fmap option_map truthy_opt].
  assert (truthy (cache_path (music_key get_cache_key lyrics style_prompt) "mp3") = true)
    as -> by done.
  unfold copy, default. cbn [from_option id]. rewrite H.
  unfold audio_duration. by rewrite lookup_insert_eq.
Qed.

Lemma generate_music_miss (get_cache_key : list Arg -> string) (run : Replicate)
    (probe : string -> Result Q) (w : World) (lyrics style_prompt output_path : string)
    (use_cache : bool) :
  (use_cache = true ->
   disk w !! cache_path (music_key get_cache_key lyrics style_prompt) "mp3" = None) ->
  generate_music get_cache_key run probe w lyrics style_prompt output_path use_cache =
  match run (remote_calls w) lyrics style_prompt with
  | Raise e =>
      (Raise (Exception ("Failed to generate music: " +:+ str e)),
       {| disk := disk w; remote_calls := S (remote_calls w) |})
  | Ok output =>
      match probe output with
      | Raise e =>
          (Raise (Exception ("Failed to generate music: " +:+ str e)),
           {| disk := <[output_path := output]> (disk w);
              remote_calls := S (remote_calls w) |})
      | Ok duration =>
          (Ok (output_path, duration),
           {| disk := if use_cache
                      then <[cache_path (music_key get_cache_key lyrics style_prompt) "mp3"
                               := output]> (<[output_path := output]> (disk w))
                      else <[output_path := output]> (disk w);
              remote_calls := S (remote_calls w) |})
      end
  end.
Proof.
  intros H. unfold generate_music. cbv zeta.
  fold (music_key get_cache_key lyrics style_prompt).
  assert (truthy_opt (if use_cache
                      then get_cached_file (disk w)
                             (music_key get_cache_key lyrics style_prompt) "mp3"
                      else None) = false) as ->.
  { destruct use_cache; [|done]. by rewrite get_cached_file_lookup, H. }
  destruct (run (remote_calls w) lyrics style_prompt) as [output|e]; [|done].
  cbn [disk remote_calls]. unfold audio_duration. rewrite lookup_insert_eq.
  destruct (probe output) as [duration|e]; [|done].
  destruct use_cache; [|done].
  unfold save_file_to_cache, copy. by rewrite lookup_insert_eq.
Qed.

(** X15. The cache of the music stage works: after a call that succeeded
    with the cache on, a second call with the same lyrics, style and output
    path returns the same path and duration, calls the remote model not at
    all, whatever the model would answer, and leaves the disk as it is. *)
Theorem generate_music_reuses_cache (get_cache_key : list Arg -> string)
    (run run' : Replicate) (probe : string -> Result Q) (w w1 : World)
    (lyrics style_prompt output_path path : string) (duration : Q) :
  generate_music get_cache_key run probe w lyrics style_prompt output_path true =
    (Ok (path, duration), w1) ->
  generate_music get_cache_key run' probe w1 lyrics style_prompt output_path true =
    (Ok (path, duration), w1) /\
  (remote_calls w1 <= S (remote_calls w))%nat.
Proof.
  intros H.
  set (cp := cache_path (music_key get_cache_key lyrics style_prompt) "mp3").
  destruct (disk w !! cp) as [bytes|] eqn:Hc.
  - rewrite (generate_music_hit _ _ _ _ _ _ _ _ Hc) in H.
    destruct (probe bytes) as [d|e] eqn:Hp; [|discriminate H].
    injection H as <- <- <-. cbn [remote_calls]. split; [|lia].
    assert ((<[output_path := bytes]> (disk w)) !! cp = Some bytes) as Hc'.
    { destruct (decide (output_path = cp)) as [->|Hne].
      - by rewrite lookup_insert_eq.
      - by rewrite lookup_insert_ne. }
    rewrite (generate_music_hit _ _ _ _ _ _ _ bytes) by exact Hc'.
    rewrite Hp. cbn [disk remote_calls]. by rewrite insert_insert_eq.
  - rewrite (generate_music_miss _ _ _ _ _ _ _ true) in H by done.
    destruct (run (remote_calls w) lyrics style_prompt) as [output|e];
      [|discriminate H].
    destruct (probe output) as [d|e] eqn:Hp; [|discriminate H].
    injection H as <- <- <-. cbn [remote_calls]. split; [|lia].
    fold cp.
    rewrite (generate_music_hit _ _ _ _ _ _ _ output)
      by (cbn [disk]; apply lookup_insert_eq).
    rewrite Hp. cbn [disk remote_calls]. do 2 f_equal.
    apply insert_id.
    destruct (decide (cp = output_path)) as [->|Hne].
    + by rewrite lookup_insert_eq.
    + rewrite lookup_insert_ne by done. by rewrite lookup_insert_eq.
Qed.

(** A model that returns the same bytes each time, and a toolkit that
    reads 42 seconds from them. *)
Definition sample_key' : list Arg -> string :=
  fun _ => "9e107d9d372bb6826bd81d3542a419d6".
Definition sample_run : Replicate := fun _ _ _ => Ok "ID3 audio".
Definition sample_probe : string -> Result Q := fun _ => Ok 42%Q.
Definition failing_run : Replicate :=
  fun _ _ _ => Raise {| exn_class := OtherException; str := "quota" |}.

Lemma generate_music_reuses_cache_witness :
  generate_music sample_key' failing_run sample_probe
    (generate_music sample_key' sample_run sample_probe LlmHandlerFacts.fresh
       "la la" "pop" "downloads/song.mp3" true).2
    "la la" "pop" "downloads/song.mp3" true =
  (Ok ("downloads/song.mp3", 42%Q),
   (generate_music sample_key' sample_run sample_probe LlmHandlerFacts.fresh
      "la la" "pop" "downloads/song.mp3" true).2).
Proof.
  destruct (generate_music_reuses_cache sample_key' sample_run failing_run sample_probe
              LlmHandlerFacts.fresh
              (generate_music sample_key' sample_run sample_probe LlmHandlerFacts.fresh
                 "la la" "pop" "downloads/song.mp3" true).2
              "la la" "pop" "downloads/song.mp3" "downloads/song.mp3" 42%Q) as [H _].
  - vm_compute. reflexivity.
  - exact H.
Defined.

(** X16. A call of the music stage that fails stores nothing in the
    cache: it writes at most the output file.  When the remote model raises,
    the disk is untouched; when the audio received cannot be read, the output
    file holds it but no cache entry is made.  Either way the error says that
    the music could not be generated. *)
Theorem generate_music_failure (get_cache_key : list Arg -> string) (run : Replicate)
    (probe : string -> Result Q) (w : World) (lyrics style_prompt output_path : string)
    (use_cache : bool) :
  (use_cache = true ->
   disk w !! cache_path (music_key get_cache_key lyrics style_prompt) "mp3" = None) ->
  let out :=
    generate_music get_cache_key run probe w lyrics style_prompt output_path use_cache in
  remote_calls out.2 = S (remote_calls w) /\
  (forall e : Exn,
     run (remote_calls w) lyrics style_prompt = Raise e ->
     out.1 = Raise (Exception ("Failed to generate music: " +:+ str e)) /\
     disk out.2 = disk w) /\
  (forall (output : string) (e : Exn),
     run (remote_calls w) lyrics style_prompt = Ok output ->
     probe output = Raise e ->
     out.1 = Raise (Exception ("Failed to generate music: " +:+ str e)) /\
     disk out.2 = <[output_path := output]> (disk w)) /\
  (forall e : Exn,
     out.1 = Raise e ->
     forall path : string, path <> output_path -> disk out.2 !! path = disk w !! path).
Proof.
  intros Hmiss out. subst out.
  rewrite (generate_music_miss _ _ _ _ _ _ _ _ Hmiss).
  destruct (run (remote_calls w) lyrics style_prompt) as [output|e0].
  - destruct (probe output) as [d|e1] eqn:Hp; cbn [fst snd disk remote_calls].
    + split; [done|]. split; [intros e H; discriminate H|].
      split; [intros o e [= <-] H; congruence|]. intros e H. discriminate H.
    + split; [done|]. split; [intros e H; discriminate H|].
      split; [intros o e [= <-] H; split; [congruence|done]|].
      intros e _ path Hne. by rewrite lookup_insert_ne.
  - cbn [fst snd disk remote_calls]. split; [done|].
    split; [by intros e [= <-]|]. split; [intros o e H; discriminate H|done].
Qed.

Lemma generate_music_failure_witness :
  (generate_music sample_key' failing_run sample_probe LlmHandlerFacts.fresh
     "la la" "pop" "downloads/song.mp3" true).1 =
  Raise (Exception "Failed to generate music: quota").
Proof.
  destruct (generate_music_failure sample_key' failing_run sample_probe
              LlmHandlerFacts.fresh "la la" "pop" "downloads/song.mp3" true)
    as (_ & H & _).
  - intros _. reflexivity.
  - destruct (H {| exn_class := OtherException; str := "quota" |} eq_refl) as [H1 _].
    exact H1.
Defined.

(** X17. The style given to the music model is never empty: it is the
    description the user gave when that is not empty, and the default style
    otherwise, whatever the concept. *)
Theorem style_prompt_never_empty (concept : string) (style_description : option string) :
  truthy (generate_music_style_prompt concept style_description) = true /\
  (forall s : string,
     style_description = Some s -> truthy s = true ->
     generate_music_style_prompt concept style_description = s) /\
  (truthy_opt style_description = false ->
   generate_music_style_prompt concept style_description =
   "Catchy pop song with modern production, upbeat tempo, clear vocals") /\
  (forall concept' : string,
     generate_music_style_prompt concept' style_description =
     generate_music_style_prompt concept style_description).
Proof.
  unfold generate_music_style_prompt. split; [|split; [|split]].
  - destruct style_description as [[|c s]|]; done.
  - intros s -> Hs. cbn. by rewrite Hs.
  - by intros ->.
  - done.
Qed.

End MusicGeneratorFacts.

(** * Further properties of the lyrics stage *)

Module LlmHandlerShape.
Import Py PyFacts CacheManager LlmHandler LlmHandlerFacts.

(** Whether a text starts, or ends, with white space. *)
Definition starts_with_space (s : string) : bool :=
  match s with
  | EmptyString => false
  | String c _ => is_space c
  end.

Fixpoint ends_with_space (s : string) : bool :=
  match s with
  | EmptyString => false
  | String c EmptyString => is_space c
  | String _ s' => ends_with_space s'
  end.

Lemma lstrip_start (s : string) : starts_with_space (lstrip s) = false.
Proof.
  induction s as [|c s IH]; [done|]. cbn [lstrip].
  destruct (is_space c) eqn:E; [done|]. cbn. by rewrite E.
Qed.

Lemma rstrip_start (s : string) :
  starts_with_space s = false -> starts_with_space (rstrip s) = false.
Proof.
  destruct s as [|c s]; [done|]. cbn [starts_with_space rstrip]. intros E.
  destruct (rstrip s); [by rewrite E|done].
Qed.

Lemma rstrip_end (s : string) : ends_with_space (rstrip s) = false.
Proof.
  induction s as [|c s IH]; [done|]. cbn [rstrip].
  destruct (rstrip s) as [|c' r].
  - destruct (is_space c) eqn:E; [done|]. cbn. by rewrite E.
  - exact IH.
Qed.

(** [strip] leaves no white space at either end. *)
Lemma strip_ends (s : string) :
  starts_with_space (strip s) = false /\ ends_with_space (strip s) = false.
Proof.
  unfold strip. split; [apply rstrip_start, lstrip_start|apply rstrip_end].
Qed.

Lemma slice_to_start (n : nat) (s : string) :
  starts_with_space s = false -> starts_with_space (slice_to n s) = false.
Proof. destruct n, s; done. Qed.

Lemma slice_to_prefix (n : nat) (s : string) :
  String.prefix (slice_to n s) s = true.
Proof.
  revert s. induction n as [|n IH]; intros [|c s]; try done.
  cbn [slice_to String.prefix]. destruct (ascii_dec c c); [apply IH|done].
Qed.

Lemma slice_to_all (n : nat) (s : string) :
  (String.length s <= n)%nat -> slice_to n s = s.
Proof.
  revert s. induction n as [|n IH]; intros [|c s] H; try done.
  - cbn in H. lia.
  - cbn [slice_to]. f_equal. apply IH. cbn in H. lia.
Qed.

(** X18. The lyrics a miss returns are the start of the model's reply
    with the white space around it removed: they never begin with white
    space; when the stripped reply has at most 599 characters they are all of
    it, and then do not end with white space either. *)
Theorem generated_lyrics_shape (get_cache_key : list Arg -> string)
    (completion : Completion) (w : World) (prompt model content : string)
    (use_cache : bool) :
  cached_lyrics get_cache_key w prompt model use_cache = None ->
  completion (remote_calls w) model ("Write song lyrics about: " +:+ prompt) =
    Ok (Some content) ->
  exists lyrics : string,
    (generate_lyrics get_cache_key completion w prompt model use_cache).1 = Ok lyrics /\
    String.prefix lyrics (strip content) = true /\
    starts_with_space lyrics = false /\
    ((String.length (strip content) <= 599)%nat ->
     lyrics = strip content /\ ends_with_space lyrics = false).
Proof.
  intros Hc Hr. rewrite (generate_lyrics_miss _ _ _ _ _ _ _ Hc Hr). cbn [fst].
  destruct (strip_ends content) as [Hs He].
  exists (slice_to 599 (strip content)). split; [done|].
  split; [apply slice_to_prefix|]. split; [by apply slice_to_start|].
  intros Hlen. by rewrite slice_to_all.
Qed.

Lemma generated_lyrics_shape_witness :
  exists lyrics : string,
    (generate_lyrics (fun _ => "9e107d9d372bb6826bd81d3542a419d6") blank_then_song
       {| disk := ∅; remote_calls := 1 |} "rain" "openai/gpt-4o" true).1 = Ok lyrics /\
    starts_with_space lyrics = false.
Proof.
  destruct (generated_lyrics_shape (fun _ => "9e107d9d372bb6826bd81d3542a419d6")
              blank_then_song {| disk := ∅; remote_calls := 1 |}
              "rain" "openai/gpt-4o" "La la la" true)
    as (lyrics & H1 & _ & H2 & _).
  - vm_compute. reflexivity.
  - reflexivity.
  - exists lyrics. split; [exact H1|exact H2].
Defined.

(** X19. What a call of the lyrics stage costs and touches: it calls
    the model at most once, and not at all on a hit; with the cache off it
    calls it exactly once and the disk is as before; a call that raises leaves
    the disk as before, so nothing is cached for it, and its error says that
    the lyrics could not be generated. *)
Theorem generate_lyrics_effects (get_cache_key : list Arg -> string)
    (completion : Completion) (w : World) (prompt model : string) (use_cache : bool) :
  let out := generate_lyrics get_cache_key completion w prompt model use_cache in
  (remote_calls w <= remote_calls out.2 <= S (remote_calls w))%nat /\
  (forall cached : string,
     cached_lyrics get_cache_key w prompt model use_cache = Some cached ->
     out = (Ok cached, w)) /\
  (use_cache = false ->
   remote_calls out.2 = S (remote_calls w) /\ disk out.2 = disk w) /\
  (forall e : Exn,
     out.1 = Raise e ->
     disk out.2 = disk w /\
     remote_calls out.2 = S (remote_calls w) /\
     String.prefix "Failed to generate lyrics: " (str e) = true).
Proof.
  intros out. subst out. unfold generate_lyrics.
  destruct (cached_lyrics get_cache_key w prompt model use_cache) as [cached|] eqn:Hc.
  - cbn [fst snd]. split; [lia|]. split; [by intros c [= <-]|].
    split; [|intros e H; discriminate H].
    intros ->. discriminate Hc.
  - cbv zeta.
    destruct (completion (remote_calls w) model ("Write song lyrics about: " +:+ prompt))
      as [[content|]|e0].
    + destruct use_cache.
      * rewrite save_to_cache_text. cbn [fst snd disk remote_calls].
        split; [lia|]. split; [intros c H; discriminate H|].
        split; [intros H; discriminate H|]. intros e H. discriminate H.
      * cbn [fst snd disk remote_calls].
        split; [lia|]. split; [intros c H; discriminate H|].
        split; [done|]. intros e H. discriminate H.
    + cbn [fst snd disk remote_calls].
      split; [lia|]. split; [intros c H; discriminate H|]. split; [done|].
      intros e [= <-]. split; [done|]. split; [done|].
      apply CacheManagerFacts.prefix_append.
    + cbn [fst snd disk remote_calls].
      split; [lia|]. split; [intros c H; discriminate H|]. split; [done|].
      intros e [= <-]. split; [done|]. split; [done|].
      apply CacheManagerFacts.prefix_append.
Qed.

End LlmHandlerShape.

(** * The stages together: segments, clips and the final video *)

Module Pipeline.
Import Py PyFacts.

(** A stitcher disk on which the song lasts 20 seconds and each of the
    three segment clips lasts 8 seconds. *)
Definition disk_8_8_8 : VideoStitcher.Disk :=
  <["videos/segment_000.mp4" := VideoStitcher.MediaFile 8]>
  (<["videos/segment_001.mp4" := VideoStitcher.MediaFile 8]>
  (<["videos/segment_002.mp4" := VideoStitcher.MediaFile 8]>
  (<["downloads/song.mp3" := VideoStitcher.MediaFile 20]> ∅))).

(** Clips of at least 8 seconds each add up to 8 seconds per clip. *)
Lemma total_at_least (fs : VideoStitcher.Disk) (paths : list string) :
  Forall (fun p => exists g, fs !! p = Some g /\ (8 <= VideoStitcher.file_duration g)%Q)
         paths ->
  Forall (fun p => is_Some (fs !! p)) paths /\
  Forall (fun p => (0 <= VideoStitcherFacts.dur fs p)%Q) paths /\
  (inject_Z (Z.of_nat (length paths)) * 8 <= VideoStitcherFacts.total fs paths)%Q.
Proof.
  induction 1 as [|p paths (g & Hg & H8) _ (IH1 & IH2 & IH3)].
  - repeat split; try constructor. vm_compute. discriminate.
  - assert (VideoStitcherFacts.dur fs p = VideoStitcher.file_duration g) as Hd
      by (unfold VideoStitcherFacts.dur; by rewrite Hg).
    split; [constructor; [by eexists|done]|].
    split; [constructor; [rewrite Hd; lra|done]|].
    unfold VideoStitcherFacts.total in *.
    cbn [map VideoStitcher.sum_durations fold_right length].
    fold (VideoStitcher.sum_durations (map (VideoStitcherFacts.full_clip fs) paths)).
    cbn [VideoStitcherFacts.full_clip VideoStitcher.clip_duration]. rewrite Hd.
    rewrite Nat2Z.inj_succ. unfold Z.succ. rewrite inject_Z_plus.
    change (inject_Z 1) with 1%Q. lra.
Qed.

(** X20. The stages fit together as [app.py] chains them: when the
    batch over the segments of a song of positive duration [d] returns, it
    returns one path per 8-second window, [ceil (d / 8)] of them, none missing;
    and on any disk where each of these files holds a clip of at least 8
    seconds and the audio file lasts [d], stitching them succeeds and writes a
    video whose visual track and duration are exactly [d], with the song as
    its audio. *)
Theorem segments_cover_the_song (get_cache_key : list CacheManager.Arg -> string)
    (client : nat -> VideoGenerator.Remote) (disk : CacheManager.Disk)
    (completion_order : list nat) (tr : Transcriber.Transcription) (d : Q)
    (genre : option string) (output_dir : string) (use_cache : bool)
    (max_workers : Z) (video_paths : list (option string)) :
  (0 < d)%Q ->
  Permutation completion_order
    (seq 0 (length (Transcriber.map_to_video_segments tr d))) ->
  VideoGenerator.generate_all_videos get_cache_key client disk completion_order
    (Transcriber.map_to_video_segments tr d) genre output_dir use_cache max_workers
    = Ok video_paths ->
  exists paths : list string,
    video_paths = map Some paths /\
    length paths = Z.to_nat (ceil (d / 8)) /\
    forall (fs : VideoStitcher.Disk) (audio_path output_path : string)
           (f : VideoStitcher.File),
      Forall (fun p => exists g, fs !! p = Some g /\
                                 (8 <= VideoStitcher.file_duration g)%Q) paths ->
      fs !! audio_path = Some f ->
      (VideoStitcher.file_duration f == d)%Q ->
      exists v : VideoStitcher.Video,
        VideoStitcher.stitch_videos fs paths audio_path d output_path =
          (Ok output_path, <[output_path := VideoStitcher.Written v]> fs) /\
        (VideoStitcher.video_duration v == d)%Q /\
        (VideoStitcher.sum_durations (VideoStitcher.video_clips v) == d)%Q /\
        VideoStitcher.video_audio v = Some audio_path.
Proof.
  intros Hd Hperm Hbatch.
  apply (VideoGeneratorTrace.batch_Ok_paths _ _ _ _ _ _ _ _ _ _ Hperm) in Hbatch.
  rewrite TranscriberFacts.length_map_to_video_segments in Hbatch.
  exists (map (VideoGenerator.output_path_of output_dir)
              (seq 0 (Z.to_nat (ceil (d / 8))))).
  split; [by rewrite Hbatch, <- list_fmap_compose|].
  split; [by rewrite length_map, length_seq|].
  intros fs audio_path output_path f Hclips Hf Hfd. clear Hbatch.
  set (paths := map (VideoGenerator.output_path_of output_dir) _) in *.
  destruct (total_at_least fs paths Hclips) as (Hex & Hnn & Htot).
  assert (length paths = Z.to_nat (ceil (d / 8))) as Hlen
    by (unfold paths; by rewrite length_map, length_seq).
  pose proof (TranscriberFacts.ceil_pos d Hd) as Hpos.
  destruct (TranscriberFacts.ceil_bounds d) as [_ Hle].
  rewrite Hlen, Z2Nat.id in Htot by lia.
  destruct (VideoStitcherBounds.load_clips_enough fs d paths [] 0%Q Hex Hnn)
    as (clips & tot & Hload & Htot' & Hsum); [lra..|].
  cbn in Hsum.
  assert (clips <> []) as Hne
    by (apply VideoStitcherBounds.sum_durations_nil_iff_pos; lra).
  unfold VideoStitcher.stitch_videos.
  rewrite (VideoStitcherFacts.compose_of_clips fs _ audio_path d tot _ f Hload Hne Hf).
  cbv zeta. eexists. split; [reflexivity|].
  assert (ltb (VideoStitcher.file_duration f) (VideoStitcher.sum_durations clips) = false)
    as -> by (apply ltb_ge; lra).
  cbn [VideoStitcher.video_duration VideoStitcher.video_clips VideoStitcher.video_audio].
  split; [lra|]. split; [lra|done].
Qed.

Lemma segments_cover_the_song_witness :
  exists v : VideoStitcher.Video,
    VideoStitcher.stitch_videos disk_8_8_8
      ["videos/segment_000.mp4"; "videos/segment_001.mp4"; "videos/segment_002.mp4"]
      "downloads/song.mp3" 20 "downloads/final_video.mp4" =
      (Ok "downloads/final_video.mp4",
       <["downloads/final_video.mp4" := VideoStitcher.Written v]> disk_8_8_8) /\
    (VideoStitcher.video_duration v == 20)%Q.
Proof.
  destruct (segments_cover_the_song VideoGeneratorFacts.sample_key
              VideoGeneratorFacts.all_ready ∅ [2; 0; 1]%nat
              TranscriberFacts.sample_transcription 20 (Some "pop") "videos" true 4
              [Some "videos/segment_000.mp4"; Some "videos/segment_001.mp4";
               Some "videos/segment_002.mp4"])
    as (paths & Hpaths & _ & Hstitch).
  - reflexivity.
  - vm_compute length. eapply perm_trans; [apply perm_swap|]. apply perm_skip, perm_swap.
  - vm_compute. reflexivity.
  - assert (paths = ["videos/segment_000.mp4"; "videos/segment_001.mp4";
                     "videos/segment_002.mp4"]) as ->.
    { change [Some "videos/segment_000.mp4"; Some "videos/segment_001.mp4";
              Some "videos/segment_002.mp4"]
        with (map Some ["videos/segment_000.mp4"; "videos/segment_001.mp4";
                        "videos/segment_002.mp4"]) in Hpaths.
      symmetry. revert Hpaths. apply (inj (fmap Some)). }
    destruct (Hstitch disk_8_8_8 "downloads/song.mp3" "downloads/final_video.mp4"
                (VideoStitcher.MediaFile 20)) as (v & Hv & Hdur & _).
    + repeat constructor; eexists; (split; [reflexivity|vm_compute; discriminate]).
    + reflexivity.
    + reflexivity.
    + exists v. split; [exact Hv|exact Hdur].
Defined.

End Pipeline.
